(** * Data-hazard scanner of TFSim: [instruction_dependency.hpp]

    A shallow embedding of the class [Dependency_Identifier] and of the
    two string helpers [trim] and [to_upper], followed by the properties
    of the decoder and of the three hazard scans.

    Conventions of the embedding.
    - [std::string] is [string]; a [char] is an [ascii].
    - [std::vector<T>] is [list T]; [v[i]] is a checked access that
      faults when [i] is out of range (the C++ behaviour is undefined).
    - [std::map<std::string, std::pair<int, std::vector<int>>>] is a
      [gmap string (Z * list Z)].
    - [size_t] indices are [nat]; the [int] slot numbers of the opcode
      table are [Z], and their conversion to [size_t] in a mixed
      comparison is written out ([to_size_t]).
    - Member functions run in a small state-and-fault monad over the
      object and the output stream [std::cout]. *)

From Stdlib Require Import ZArith Ascii String List Lia Sorting.Sorted.
From stdpp Require Import base option list sorting gmap strings pretty fin_maps.

Local Open Scope string_scope.
Local Open Scope list_scope.

(** ** Characters and the two free functions *)

Module Chars.

Definition tab : ascii := ascii_of_nat 9.
Definition newline : ascii := ascii_of_nat 10.
Definition creturn : ascii := ascii_of_nat 13.
Definition space : ascii := ascii_of_nat 32.

(** [std::isspace] in the classic locale, which is what the extraction
    [ss >> part] of a default-constructed stream consults: the space
    and the five characters from the horizontal tab (9) to the
    carriage return (13). *)
Definition isspace (c : ascii) : bool :=
  let n := nat_of_ascii c in
  (n =? 32)%nat || ((9 <=? n)%nat && (n <=? 13)%nat).

(** [std::toupper] in the classic locale: only a..z are changed. *)
Definition toupper (c : ascii) : ascii :=
  let n := nat_of_ascii c in
  if ((97 <=? n) && (n <=? 122))%nat then ascii_of_nat (n - 32) else c.

(** Membership of a character in the set given as a string, as used by
    [find_first_not_of] and [find_last_not_of]. *)
Fixpoint among (c : ascii) (chars : string) : bool :=
  match chars with
  | EmptyString => false
  | String d rest => if Ascii.eqb c d then true else among c rest
  end.

End Chars.

(** [s.find_first_not_of(chars)]; [None] stands for [std::string::npos]. *)
Fixpoint find_first_not_of (chars s : string) : option nat :=
  match s with
  | EmptyString => None
  | String c rest =>
      if Chars.among c chars then S <$> find_first_not_of chars rest
      else Some 0
  end.

(** [s.find_last_not_of(chars)]. *)
Fixpoint find_last_not_of (chars s : string) : option nat :=
  match s with
  | EmptyString => None
  | String c rest =>
      match find_last_not_of chars rest with
      | Some k => Some (S k)
      | None => if Chars.among c chars then None else Some 0
      end
  end.

(** The blank set of [trim]: the literal [" \t\n\r"]. *)
Definition trim_blanks : string :=
  String Chars.space (String Chars.tab (String Chars.newline
    (String Chars.creturn EmptyString))).

(** [trim]: a string of blanks only is returned as it is.  When [first]
    is found [last] is found too; the [None] arm writes out what
    [npos - first + 1] gives modulo 2^64 once [substr] has clamped it. *)
Definition trim (s : string) : string :=
  match find_first_not_of trim_blanks s with
  | None => s
  | Some first =>
      match find_last_not_of trim_blanks s with
      | Some last => substring first (last - first + 1) s
      | None => substring first (String.length s - first) s
      end
  end.

(** [std::transform] of a string, character by character. *)
Fixpoint transform (f : ascii -> ascii) (s : string) : string :=
  match s with
  | EmptyString => EmptyString
  | String c rest => String (f c) (transform f rest)
  end.

Definition to_upper (s : string) : string := transform Chars.toupper s.

(** [std::replace(s.begin(), s.end(), old, new)]. *)
Definition replace (old new : ascii) (s : string) : string :=
  transform (fun c => if Ascii.eqb c old then new else c) s.

(** ** Formatted extraction from a string stream *)

Module Stream.

(** The unread rest of the stream buffer. *)
Definition t := string.

(** Leading white space is discarded first. *)
Fixpoint skipws (ss : t) : t :=
  match ss with
  | EmptyString => EmptyString
  | String c rest => if Chars.isspace c then skipws rest else ss
  end.

(** Characters are then taken up to the next white space or the end. *)
Fixpoint take_word (ss : t) : string * t :=
  match ss with
  | EmptyString => (EmptyString, EmptyString)
  | String c rest =>
      if Chars.isspace c then (EmptyString, ss)
      else let '(w, ss') := take_word rest in (String c w, ss')
  end.

(** [ss >> part]: [None] when the stream fails (nothing but white space
    was left), otherwise the word read and the stream after it. *)
Definition extract (ss : t) : option (string * t) :=
  match skipws ss with
  | EmptyString => None
  | ss' => Some (take_word ss')
  end.

End Stream.

(** The loop [while (ss >> part) parts.push_back(trim(part))].  The loop
    is unbounded in the source; [fuel] bounds the number of iterations
    and [None] is returned when it runs out before the stream fails. *)
Fixpoint read_parts (fuel : nat) (ss : Stream.t) (parts : list string)
  : option (list string) :=
  match fuel with
  | O => None
  | S fuel' =>
      match Stream.extract ss with
      | None => Some parts
      | Some (part, ss') => read_parts fuel' ss' (parts ++ [trim part])
      end
  end.

Definition delimit (instruction : string) : string :=
  let instruction := replace "," " " instruction in
  let instruction := replace ";" " " instruction in
  let instruction := replace "(" " " instruction in
  let instruction := replace ")" " " instruction in
  instruction.

Definition parse_instruction_fuel (fuel : nat) (instruction : string)
  : option (list string) :=
  read_parts fuel (delimit instruction) [].

(** One more iteration than there are characters always suffices
    ([parse_instruction_fuel_enough] below), so this is the value the
    C++ function returns. *)
Definition parse_instruction (instruction : string) : list string :=
  default [] (parse_instruction_fuel (S (String.length instruction)) instruction).


(** ** The report written to [std::cout] *)

Inductive Hazard := RAW | WAR | WAW.

#[global] Instance Hazard_eq_dec : EqDecision Hazard.
Proof. solve_decision. Defined.

(** One finding: the three statements that follow ["... Dependency Found:"]
    print the two instruction numbers, the two original lines and the
    register as each statement names it. *)
Record Dependency := {
  hazard : Hazard;
  earlier : nat;
  earlier_text : string;
  earlier_register : string;
  later : nat;
  later_text : string;
  later_register : string
}.

#[global] Instance Dependency_eq_dec : EqDecision Dependency.
Proof. solve_decision. Defined.

(** What is inserted into the stream, one constructor per group of
    output statements of the source. *)
Inductive Report_Item :=
| Identifying (k : Hazard)
| No_Instructions
| Dependency_Found (d : Dependency)
| Analysis_Complete.

Module Render.

Definition endl : string := String Chars.newline EmptyString.
Definition htab : string := String Chars.tab EmptyString.

Definition name (k : Hazard) : string :=
  match k with RAW => "RAW" | WAR => "WAR" | WAW => "WAW" end.

Definition first_verb (k : Hazard) : string :=
  match k with
  | RAW => "writes to register "
  | WAR => "reads from register "
  | WAW => "writes to register "
  end.

Definition second_verb (k : Hazard) : string :=
  match k with
  | RAW => "reads from register "
  | WAR => "writes to register "
  | WAW => "also writes to register "
  end.

Definition line (k : Hazard) (verb : string) (n : nat) (text reg : string)
  : string :=
  htab +:+ "Instruction " +:+ pretty n +:+ ": (" +:+ text +:+ ") "
       +:+ verb +:+ reg +:+ "." +:+ endl.

(** The characters an item puts on the stream. *)
Definition item (x : Report_Item) : string :=
  match x with
  | Identifying k => "--- Identifying " +:+ name k +:+ " Dependencies ---" +:+ endl
  | No_Instructions => "No instructions to analyze." +:+ endl
  | Dependency_Found d =>
      name (hazard d) +:+ " Dependency Found:" +:+ endl
      +:+ line (hazard d) (first_verb (hazard d))
            (earlier d) (earlier_text d) (earlier_register d)
      +:+ line (hazard d) (second_verb (hazard d))
            (later d) (later_text d) (later_register d)
      +:+ "------------------------------------" +:+ endl
  | Analysis_Complete => "--- Analysis Complete ---" +:+ endl
  end.

Fixpoint text (out : list Report_Item) : string :=
  match out with
  | [] => EmptyString
  | x :: rest => item x +:+ text rest
  end.

End Render.

(** The findings of a report, in the order they were printed. *)
Fixpoint dependencies (out : list Report_Item) : list Dependency :=
  match out with
  | [] => []
  | Dependency_Found d :: rest => d :: dependencies rest
  | _ :: rest => dependencies rest
  end.

(** ** The object and the monad its member functions run in *)

Record Dependency_Identifier := {
  _instructions : list string;
  parsed_instructions : list (list string);
  operand_map : gmap string (Z * list Z)
}.

Record World := {
  this : Dependency_Identifier;
  cout : list Report_Item
}.

(** A member function either returns, with a value and the world it
    leaves, or faults on a vector subscript out of range. *)
Inductive Outcome (A : Type) :=
| Returns (a : A) (w : World)
| Fault.
Arguments Returns {A} a w.
Arguments Fault {A}.

Definition M (A : Type) : Type := World -> Outcome A.

#[global] Instance M_ret : MRet M := fun A a w => Returns a w.

#[global] Instance M_bind : MBind M := fun A B k m w =>
  match m w with
  | Returns a w' => k a w'
  | Fault => Fault
  end.

(** Reading a data member. *)
Definition member {A} (field : Dependency_Identifier -> A) : M A :=
  fun w => Returns (field (this w)) w.

(** [std::cout << ...]. *)
Definition print (x : Report_Item) : M unit :=
  fun w => Returns tt {| this := this w; cout := cout w ++ [x] |}.

(** [v[i]] of a vector. *)
Definition subscript {A} (v : list A) (i : nat) : M A :=
  fun w => match v !! i with
           | Some a => Returns a w
           | None => Fault
           end.

(** A range-based [for] over a vector. *)
Fixpoint for_each {A} (xs : list A) (body : A -> M unit) : M unit :=
  match xs with
  | [] => mret tt
  | x :: rest => body x ;; for_each rest body
  end.

(** [for (size_t i = lo; i < hi; ++i)]. *)
Definition for_range (lo hi : nat) (body : nat -> M unit) : M unit :=
  for_each (seq lo (hi - lo)) body.

(** Conversion of an [int] to [size_t], as the comparison
    [dest_index < instruction_parts.size()] performs it. *)
Definition to_size_t (n : Z) : Z := (n mod 2 ^ 64)%Z.

(** ** The constructor *)

(** The assignments [operand_map["ADD"] = { 1, {2, 3} }; ...] in the
    order of the source. *)
Definition operand_assignments : list (string * (Z * list Z)) :=
  [ ("ADD", (1, [2; 3])); ("ADDI", (1, [2])); ("SUB", (1, [2; 3]));
    ("MUL", (1, [2; 3])); ("DIV", (1, [2; 3])); ("LD", (1, []));
    ("SD", (0, [1; 3]));
    ("DADD", (1, [2; 3])); ("DADDI", (1, [2])); ("DSUB", (1, [2; 3]));
    ("DMUL", (1, [2; 3])); ("DDIV", (1, [2; 3]));
    ("SLT", (1, [2; 3])); ("SGT", (1, [2; 3]));
    ("BEQ", (0, [1; 2])); ("BNE", (0, [1; 2])); ("BLTZ", (0, [1; 2]));
    ("BGTZ", (0, [1; 2])); ("BGEZ", (0, [1; 2])); ("BLEZ", (0, [1; 2])) ]%Z.

Definition assign (m : gmap string (Z * list Z)) (kv : string * (Z * list Z))
  : gmap string (Z * list Z) :=
  <[kv.1 := kv.2]> m.

(** The table every constructor call ends up with. *)
Definition operand_table : gmap string (Z * list Z) :=
  foldl assign ∅ operand_assignments.

Definition new_Dependency_Identifier (instructions : list string)
  : Dependency_Identifier :=
  {| _instructions := instructions;
     operand_map := operand_table;
     parsed_instructions :=
       foldl (fun parsed inst => parsed ++ [parse_instruction inst])
             [] instructions |}.

(** ** The two private accessors *)

Definition get_destination_register (index : nat) : M string :=
  parsed ← member parsed_instructions;
  if (length parsed <=? index)%nat then mret ""
  else
    instruction_parts ← subscript parsed index;
    if (length instruction_parts =? 0)%nat then mret ""
    else
      part0 ← subscript instruction_parts 0;
      let opcode := to_upper part0 in
      table ← member operand_map;
      match table !! opcode with
      | Some (dest_index, _) =>
          if ((0 <? dest_index)
              && (to_size_t dest_index <? Z.of_nat (length instruction_parts)))%Z
          then subscript instruction_parts (Z.to_nat (to_size_t dest_index))
          else mret ""
      | None => mret ""
      end.

(** The loop over [source_indices], pushing onto the local [sources]. *)
Fixpoint push_sources (instruction_parts : list string)
    (source_indices : list Z) (sources : list string) : M (list string) :=
  match source_indices with
  | [] => mret sources
  | src_index :: rest =>
      if ((0 <? src_index)
          && (to_size_t src_index <? Z.of_nat (length instruction_parts)))%Z
      then
        part ← subscript instruction_parts (Z.to_nat (to_size_t src_index));
        push_sources instruction_parts rest (sources ++ [part])
      else push_sources instruction_parts rest sources
  end.

Definition get_source_registers (index : nat) : M (list string) :=
  let sources := [] in
  parsed ← member parsed_instructions;
  if (length parsed <=? index)%nat then mret sources
  else
    instruction_parts ← subscript parsed index;
    if (length instruction_parts =? 0)%nat then mret sources
    else
      part0 ← subscript instruction_parts 0;
      let opcode := to_upper part0 in
      table ← member operand_map;
      match table !! opcode with
      | Some (_, source_indices) =>
          push_sources instruction_parts source_indices sources
      | None => mret sources
      end.

(** ** The three scans *)

(** The four output statements of a finding. *)
Definition report (k : Hazard) (i j : nat) (reg_i reg_j : string) : M unit :=
  instructions ← member _instructions;
  inst_i ← subscript instructions i;
  inst_j ← subscript instructions j;
  print (Dependency_Found
           {| hazard := k;
              earlier := i; earlier_text := inst_i; earlier_register := reg_i;
              later := j; later_text := inst_j; later_register := reg_j |}).

Definition find_RAW_dependencies : M unit :=
  print (Identifying RAW);;
  parsed ← member parsed_instructions;
  if (length parsed =? 0)%nat then print No_Instructions
  else
    for_range 0 (length parsed) (fun i =>
      dest_reg ← get_destination_register i;
      if String.eqb dest_reg "" then mret tt
      else
        for_range (i + 1) (length parsed) (fun j =>
          src_regs ← get_source_registers j;
          for_each src_regs (fun src_reg =>
            if String.eqb src_reg dest_reg
            then report RAW i j dest_reg dest_reg
            else mret tt)));;
    print Analysis_Complete.

Definition find_WAR_dependencies : M unit :=
  print (Identifying WAR);;
  parsed ← member parsed_instructions;
  if (length parsed =? 0)%nat then print No_Instructions
  else
    for_range 0 (length parsed) (fun i =>
      src_regs_i ← get_source_registers i;
      if (length src_regs_i =? 0)%nat then mret tt
      else
        for_range (i + 1) (length parsed) (fun j =>
          dest_reg_j ← get_destination_register j;
          if String.eqb dest_reg_j "" then mret tt
          else
            for_each src_regs_i (fun src_reg =>
              if String.eqb src_reg dest_reg_j
              then report WAR i j src_reg dest_reg_j
              else mret tt)));;
    print Analysis_Complete.

Definition find_WAW_dependencies : M unit :=
  print (Identifying WAW);;
  parsed ← member parsed_instructions;
  if (length parsed =? 0)%nat then print No_Instructions
  else
    for_range 0 (length parsed) (fun i =>
      dest_reg_i ← get_destination_register i;
      if String.eqb dest_reg_i "" then mret tt
      else
        for_range (i + 1) (length parsed) (fun j =>
          dest_reg_j ← get_destination_register j;
          if String.eqb dest_reg_i dest_reg_j
          then report WAW i j dest_reg_i dest_reg_j
          else mret tt));;
    print Analysis_Complete.

Definition find (k : Hazard) : M unit :=
  match k with
  | RAW => find_RAW_dependencies
  | WAR => find_WAR_dependencies
  | WAW => find_WAW_dependencies
  end.

(** A caller's world: a freshly constructed scanner and what has been
    printed so far. *)
Definition scanner (instructions : list string) (printed : list Report_Item)
  : World :=
  {| this := new_Dependency_Identifier instructions; cout := printed |}.

(** ** The tokenizer as the specification words it *)

Module Spec.

(** The four delimiter characters. *)
Definition is_delimiter (c : ascii) : bool :=
  Ascii.eqb c "," || Ascii.eqb c ";" || Ascii.eqb c "(" || Ascii.eqb c ")".

(** Each delimiter becomes a single space. *)
Definition respace (raw : string) : string :=
  transform (fun c => if is_delimiter c then " "%char else c) raw.

(** Splitting on runs of white space: [word] is the token being
    gathered; a run of white space ends it once. *)
Fixpoint fields (word : string) (s : string) : list string :=
  match s with
  | EmptyString => match word with EmptyString => [] | _ => [word] end
  | String c rest =>
      if Chars.isspace c
      then match word with
           | EmptyString => fields EmptyString rest
           | _ => word :: fields EmptyString rest
           end
      else fields (word +:+ String c EmptyString) rest
  end.

Definition tokenize (raw : string) : list string :=
  trim <$> fields EmptyString (respace raw).

(** The opcode table of the specification, row by row: the opcodes
    of the row, the destination slot ([None] for the entry "none") and
    the source slots in their declared order. *)
Definition opcode_table : list (list string * (option nat * list nat)) :=
  [ (["ADD"; "SUB"; "MUL"; "DIV"; "DADD"; "DSUB"; "DMUL"; "DDIV"; "SLT"; "SGT"],
     (Some 1, [2; 3]));
    (["ADDI"; "DADDI"], (Some 1, [2]));
    (["LD"], (Some 1, []));
    (["SD"], (None, [1; 3]));
    (["BEQ"; "BNE"; "BLTZ"; "BGTZ"; "BGEZ"; "BLEZ"], (None, [1; 2])) ].

Fixpoint roles_in (table : list (list string * (option nat * list nat)))
    (opcode : string) : option (option nat * list nat) :=
  match table with
  | [] => None
  | (names, entry) :: rest =>
      if bool_decide (opcode ∈ names) then Some entry
      else roles_in rest opcode
  end.

Definition roles (opcode : string) : option (option nat * list nat) :=
  roles_in opcode_table opcode.

(** The destination: none when the opcode is absent, when its slot is
    "none" or when the slot is out of bounds; else the token there. *)
Definition destination_register (tokens : list string) : option string :=
  match tokens with
  | [] => None
  | opcode :: _ =>
      match roles (to_upper opcode) with
      | None => None
      | Some (None, _) => None
      | Some (Some slot, _) => tokens !! slot
      end
  end.

(** The sources: the tokens at the configured slots that are within
    bounds, in the declared order. *)
Definition source_registers (tokens : list string) : list string :=
  match tokens with
  | [] => []
  | opcode :: _ =>
      match roles (to_upper opcode) with
      | None => []
      | Some (_, slots) => omap (fun slot => tokens !! slot) slots
      end
  end.

(** How the source writes a table entry: slot 0 for "none". *)
Definition encode (entry : option nat * list nat) : Z * list Z :=
  (from_option Z.of_nat 0%Z entry.1, Z.of_nat <$> entry.2).

End Spec.

(** Every character of a string satisfies [p]. *)
Fixpoint all_chars (p : ascii -> bool) (s : string) : bool :=
  match s with
  | EmptyString => true
  | String c rest => p c && all_chars p rest
  end.

(** A token as the extraction produces it: not empty, no white space. *)
Definition is_word (s : string) : Prop :=
  s ≠ EmptyString ∧ all_chars (fun c => negb (Chars.isspace c)) s = true.

(** The opcode of a token sequence is in the table. *)
Definition known_opcode (table : gmap string (Z * list Z))
    (parts : list string) : bool :=
  match parts with
  | [] => false
  | part0 :: _ => bool_decide (is_Some (table !! to_upper part0))
  end.

(** ** Operand roles read off the table *)

Module Decode.

Section Table.

Variable table : gmap string (Z * list Z).

(** The guard [slot > 0 && slot < instruction_parts.size()] that both
    accessors put before a subscript. *)
Definition in_range (parts : list string) (slot : Z) : bool :=
  ((0 <? slot) && (to_size_t slot <? Z.of_nat (length parts)))%Z.

(** The token a slot designates, when the guard lets it through. *)
Definition token_at (parts : list string) (slot : Z) : option string :=
  if in_range parts slot then parts !! Z.to_nat (to_size_t slot) else None.

(** The table entry of the opcode, looked up in upper case. *)
Definition roles (parts : list string) : option (Z * list Z) :=
  match parts with
  | [] => None
  | part0 :: _ => table !! to_upper part0
  end.

Definition destination (parts : list string) : option string :=
  match roles parts with
  | Some (dest_index, _) => token_at parts dest_index
  | None => None
  end.

Definition source_slots (parts : list string) : list Z :=
  match roles parts with
  | Some (_, source_indices) => source_indices
  | None => []
  end.

Definition sources (parts : list string) : list string :=
  omap (token_at parts) (source_slots parts).

End Table.

End Decode.

(** The same, for the instruction at an index of a scanner. *)
Section Of_scanner.

Variable self : Dependency_Identifier.

Definition parts_of (index : nat) : list string :=
  default [] (parsed_instructions self !! index).

Definition text_of (index : nat) : string :=
  default EmptyString (_instructions self !! index).

Definition destination_register (index : nat) : option string :=
  Decode.destination (operand_map self) (parts_of index).

Definition source_slots (index : nat) : list Z :=
  Decode.source_slots (operand_map self) (parts_of index).

Definition slot_token (index : nat) (slot : Z) : option string :=
  Decode.token_at (parts_of index) slot.

Definition source_registers (index : nat) : list string :=
  Decode.sources (operand_map self) (parts_of index).

Definition finding (k : Hazard) (i j : nat) (reg_i reg_j : string)
  : Dependency :=
  {| hazard := k;
     earlier := i; earlier_text := text_of i; earlier_register := reg_i;
     later := j; later_text := text_of j; later_register := reg_j |}.

(** What the body of the inner loop prints for the pair [(i, j)]. *)
Definition between (k : Hazard) (i j : nat) : list Dependency :=
  match k with
  | RAW =>
      let dest_reg := default EmptyString (destination_register i) in
      if String.eqb dest_reg EmptyString then []
      else flat_map (fun src_reg =>
                       if String.eqb src_reg dest_reg
                       then [finding RAW i j dest_reg dest_reg] else [])
                    (source_registers j)
  | WAR =>
      let dest_reg_j := default EmptyString (destination_register j) in
      if String.eqb dest_reg_j EmptyString then []
      else flat_map (fun src_reg =>
                       if String.eqb src_reg dest_reg_j
                       then [finding WAR i j src_reg dest_reg_j] else [])
                    (source_registers i)
  | WAW =>
      let dest_reg_i := default EmptyString (destination_register i) in
      let dest_reg_j := default EmptyString (destination_register j) in
      if String.eqb dest_reg_i EmptyString then []
      else if String.eqb dest_reg_i dest_reg_j
           then [finding WAW i j dest_reg_i dest_reg_j] else []
  end.

End Of_scanner.

(** The two nested loops over [i] and [j > i], as a list. *)
Definition ordered_pairs {A} (n : nat) (body : nat -> nat -> list A) : list A :=
  flat_map (fun i => flat_map (body i) (seq (i + 1) (n - (i + 1)))) (seq 0 n).

Definition findings (k : Hazard) (self : Dependency_Identifier)
  : list Dependency :=
  ordered_pairs (length (parsed_instructions self)) (between self k).

Definition expected_report (k : Hazard) (self : Dependency_Identifier)
  : list Report_Item :=
  Identifying k ::
    if (length (parsed_instructions self) =? 0)%nat then [No_Instructions]
    else (Dependency_Found <$> findings k self) ++ [Analysis_Complete].

(** The pair of indices of a finding, and program order on such pairs. *)
Definition pair_of (d : Dependency) : nat * nat := (earlier d, later d).

Definition pair_le (p q : nat * nat) : Prop :=
  p.1 < q.1 ∨ (p.1 = q.1 ∧ p.2 <= q.2).

(** The object state a member function may rely on: one parsed line per
    input line, as the constructor leaves it. *)
Definition consistent (self : Dependency_Identifier) : Prop :=
  length (_instructions self) = length (parsed_instructions self).

(** A computation that returns with the object as it was and [out]
    appended to the stream. *)
Definition emits (self : Dependency_Identifier) (m : M unit)
    (out : list Report_Item) : Prop :=
  forall printed : list Report_Item,
    m {| this := self; cout := printed |}
    = Returns tt {| this := self; cout := printed ++ out |}.

(** A computation that returns a value and leaves the world as it was. *)
Definition yields {A} (self : Dependency_Identifier) (m : M A) (a : A) : Prop :=
  forall printed : list Report_Item,
    m {| this := self; cout := printed |}
    = Returns a {| this := self; cout := printed |}.

(** All ordered pairs drawn from a list of indices, earlier element
    first: the shape of the two loops when the indices are [0 .. n-1]. *)
Fixpoint pairs_on {A} (indices : list nat) (body : nat -> nat -> list A)
  : list A :=
  match indices with
  | [] => []
  | i :: rest => flat_map (body i) rest ++ pairs_on rest body
  end.

(** The index an instruction gets once a line is inserted at [k]. *)
Definition bump (k i : nat) : nat := if (i <? k)%nat then i else S i.

Definition renumber (k : nat) (d : Dependency) : Dependency :=
  {| hazard := hazard d;
     earlier := bump k (earlier d);
     earlier_text := earlier_text d;
     earlier_register := earlier_register d;
     later := bump k (later d);
     later_text := later_text d;
     later_register := later_register d |}.

(** Some token of the line, in upper case, is an opcode of the table. *)
Definition contains_opcode (table : gmap string (Z * list Z)) (raw : string)
  : bool :=
  existsb (fun token => bool_decide (is_Some (table !! to_upper token)))
          (parse_instruction raw).

(** The operand roles above are what the two accessors return on
    [self]: the destination, the empty string standing for "none" and
    for nothing else, and the sources slot by slot. *)
Definition accessors_agree (self : Dependency_Identifier) : Prop :=
  forall (index : nat) (printed : list Report_Item),
    let w := {| this := self; cout := printed |} in
    get_destination_register index w
    = Returns (default EmptyString (destination_register self index)) w
    ∧ get_source_registers index w
      = Returns (omap (slot_token self index) (source_slots self index)) w
    ∧ (forall r, destination_register self index = Some r -> r ≠ EmptyString).

(** ** Further notions used by the properties of the helpers *)

(** A blank for [trim]: one of the four characters of its literal. *)
Definition is_blank (c : ascii) : bool := Chars.among c trim_blanks.

(** A character that ends a token: white space for the stream or one of
    the four delimiters. *)
Definition is_separator (c : ascii) : bool :=
  Chars.isspace c || Spec.is_delimiter c.

(** A token with no separator in it. *)
Definition is_clean (s : string) : Prop :=
  s ≠ EmptyString ∧ all_chars (fun c => negb (is_separator c)) s = true.

(** Tokens written back on one line, one space between neighbours. *)
Fixpoint join (tokens : list string) : string :=
  match tokens with
  | [] => EmptyString
  | [token] => token
  | token :: rest => token +:+ String Chars.space (join rest)
  end.

(** The values an [int] of the opcode table can take. *)
Definition is_int (n : Z) : Prop := (- 2 ^ 31 <= n < 2 ^ 31)%Z.

Definition int_table (table : gmap string (Z * list Z)) : Prop :=
  map_Forall (fun _ entry => is_int entry.1 ∧ Forall is_int entry.2) table.

(** A lower-case letter of the classic locale. *)
Definition is_lower (c : ascii) : bool :=
  let n := nat_of_ascii c in ((97 <=? n) && (n <=? 122))%nat.

(** A world with a scanner of one parsed line. *)
Definition one_line (texts : list string) (table : gmap string (Z * list Z))
    (printed : list Report_Item) (tokens : list string) : World :=
  {| this := {| _instructions := texts;
                parsed_instructions := [tokens];
                operand_map := table |};
     cout := printed |}.

(** The instructions a finding names as the one that writes the
    register, and as the one that reads it. *)
Definition writers (d : Dependency) : list nat :=
  match hazard d with
  | RAW => [earlier d]
  | WAR => [later d]
  | WAW => [earlier d; later d]
  end.

Definition readers (d : Dependency) : list nat :=
  match hazard d with
  | RAW => [later d]
  | WAR => [earlier d]
  | WAW => []
  end.

(** The most findings one pair of instructions can give. *)
Definition per_pair (h : Hazard) : nat :=
  match h with
  | RAW => 2
  | WAR => 2
  | WAW => 1
  end.

(** The characters of a string that satisfy [p], in order. *)
Fixpoint keep (p : ascii -> bool) (s : string) : string :=
  match s with
  | EmptyString => EmptyString
  | String c rest => if p c then String c (keep p rest) else keep p rest
  end.

(** Tokens written one after the other with nothing between them. *)
Fixpoint glue (tokens : list string) : string :=
  match tokens with
  | [] => EmptyString
  | token :: rest => token +:+ glue rest
  end.

(** ** Strings *)

Section Strings.

Lemma append_cons (c : ascii) (s w : string) :
  String c s +:+ w = String c (s +:+ w).
Proof. reflexivity. Qed.

Lemma append_empty_r (s : string) : s +:+ EmptyString = s.
Proof.
  induction s as [|c s IH]; [reflexivity|]. now rewrite append_cons, IH.
Qed.

Lemma append_snoc (s w : string) (c : ascii) :
  (s +:+ String c EmptyString) +:+ w = s +:+ String c w.
Proof.
  induction s as [|d s IH]; [reflexivity|]. now rewrite !append_cons, IH.
Qed.

Lemma transform_length f s : String.length (transform f s) = String.length s.
Proof. induction s as [|c s IH]; simpl; [reflexivity | now rewrite IH]. Qed.

Lemma transform_compose f g s :
  transform f (transform g s) = transform (fun c => f (g c)) s.
Proof. induction s as [|c s IH]; simpl; [reflexivity | now rewrite IH]. Qed.

Lemma transform_ext f g s :
  (forall c, f c = g c) -> transform f s = transform g s.
Proof.
  intros Hfg. induction s as [|c s IH]; simpl; [reflexivity|].
  now rewrite Hfg, IH.
Qed.

Lemma all_chars_transform p f s :
  all_chars p (transform f s) = all_chars (fun c => p (f c)) s.
Proof. induction s as [|c s IH]; simpl; [reflexivity | now rewrite IH]. Qed.

Lemma substring_whole s : substring 0 (String.length s) s = s.
Proof. induction s as [|c s IH]; simpl; [reflexivity | now rewrite IH]. Qed.

(** The four replacements in sequence are one pass of [Spec.respace]. *)
Lemma delimit_respace s : delimit s = Spec.respace s.
Proof.
  unfold delimit, replace, Spec.respace.
  rewrite !transform_compose. apply transform_ext. intros c.
  unfold Spec.is_delimiter.
  destruct (Ascii.eqb_spec c ",") as [->|]; [reflexivity|].
  destruct (Ascii.eqb_spec c ";") as [->|]; [reflexivity|].
  destruct (Ascii.eqb_spec c "(") as [->|]; [reflexivity|].
  destruct (Ascii.eqb_spec c ")") as [->|]; reflexivity.
Qed.

Lemma delimit_length s : String.length (delimit s) = String.length s.
Proof. rewrite delimit_respace. apply transform_length. Qed.

(** The blanks of [trim] are white space for the stream. *)
Lemma trim_blanks_isspace c :
  Chars.among c trim_blanks = true -> Chars.isspace c = true.
Proof.
  destruct c as [[] [] [] [] [] [] [] []]; vm_compute; congruence.
Qed.

Lemma find_last_not_of_word chars s :
  s ≠ EmptyString ->
  all_chars (fun c => negb (Chars.among c chars)) s = true ->
  find_last_not_of chars s = Some (String.length s - 1).
Proof.
  induction s as [|c s IH]; [congruence|]. intros _ Hall. simpl in *.
  apply andb_prop in Hall as [Hc Hs].
  destruct s as [|d s'].
  - simpl. apply negb_true_iff in Hc. now rewrite Hc.
  - rewrite IH by (congruence || assumption). simpl. f_equal. lia.
Qed.

Lemma all_chars_impl (p q : ascii -> bool) s :
  (forall c, p c = true -> q c = true) ->
  all_chars p s = true -> all_chars q s = true.
Proof.
  intros Hpq. induction s as [|c s IH]; simpl; [reflexivity|].
  intros [Hc Hs]%andb_prop. rewrite (Hpq _ Hc). now apply IH.
Qed.

(** [trim] leaves a word as it is. *)
Lemma trim_word s : is_word s -> trim s = s.
Proof.
  intros [Hne Hall].
  assert (Hall' : all_chars (fun c => negb (Chars.among c trim_blanks)) s = true).
  { revert Hall. apply all_chars_impl. intros c Hc.
    destruct (Chars.among c trim_blanks) eqn:E; [|reflexivity].
    apply trim_blanks_isspace in E. now rewrite E in Hc. }
  unfold trim. rewrite (find_last_not_of_word _ _ Hne Hall').
  destruct s as [|c s]; [congruence|].
  cbn [find_first_not_of all_chars] in *.
  apply andb_prop in Hall' as [Hc _]. apply negb_true_iff in Hc.
  rewrite Hc. replace (String.length (String c s) - 1 - 0 + 1)
    with (String.length (String c s)) by (simpl; lia).
  apply substring_whole.
Qed.

End Strings.

(** ** The extraction loop *)

Section Extraction.

Import Stream.

Lemma skipws_length ss : String.length (skipws ss) <= String.length ss.
Proof.
  induction ss as [|c ss IH]; simpl; [lia|].
  destruct (Chars.isspace c); simpl; lia.
Qed.

Lemma skipws_head ss c rest :
  skipws ss = String c rest -> Chars.isspace c = false.
Proof.
  induction ss as [|d ss IH]; simpl; [discriminate|].
  destruct (Chars.isspace d) eqn:E; [exact IH|].
  intros [= <- <-]. exact E.
Qed.

Lemma take_word_length ss :
  String.length (take_word ss).2 <= String.length ss.
Proof.
  induction ss as [|c ss IH]; simpl; [lia|].
  destruct (Chars.isspace c); simpl; [lia|].
  destruct (take_word ss) as [w ss']. simpl in *. lia.
Qed.

Lemma fields_skipws ss :
  Spec.fields EmptyString ss = Spec.fields EmptyString (skipws ss).
Proof.
  induction ss as [|c ss IH]; simpl; [reflexivity|].
  destruct (Chars.isspace c) eqn:E; [exact IH|].
  simpl. now rewrite E.
Qed.

(** What the splitter does over the stretch [take_word] consumes. *)
Lemma fields_take_word ss word :
  Spec.fields word ss =
    match word +:+ (take_word ss).1 with
    | EmptyString => Spec.fields EmptyString (take_word ss).2
    | w => w :: Spec.fields EmptyString (take_word ss).2
    end.
Proof.
  revert word. induction ss as [|c ss IH]; intros word; simpl.
  - rewrite append_empty_r. now destruct word.
  - destruct (Chars.isspace c) eqn:E; simpl.
    + rewrite append_empty_r, E. now destruct word.
    + rewrite IH. destruct (take_word ss) as [w ss']. simpl.
      now rewrite append_snoc.
Qed.

Lemma read_parts_fields fuel ss parts :
  String.length ss < fuel ->
  read_parts fuel ss parts
  = Some (parts ++ (trim <$> Spec.fields EmptyString ss)).
Proof.
  revert ss parts. induction fuel as [|fuel IH]; intros ss parts Hlen; [lia|].
  simpl. unfold extract. rewrite (fields_skipws ss).
  pose proof (skipws_length ss) as Hskip.
  destruct (skipws ss) as [|c rest] eqn:Hs.
  - simpl. now rewrite app_nil_r.
  - pose proof (skipws_head _ _ _ Hs) as Hc.
    rewrite (fields_take_word (String c rest) EmptyString).
    pose proof (take_word_length rest) as Hrest.
    simpl. rewrite Hc. destruct (take_word rest) as [w ss'] eqn:Hw.
    simpl in *. rewrite IH by lia. now rewrite <- app_assoc.
Qed.

End Extraction.

(** One more iteration than there are characters is always enough, and
    more fuel changes nothing. *)
Lemma parse_instruction_fuel_enough (instruction : string) (fuel : nat) :
  String.length instruction < fuel ->
  parse_instruction_fuel fuel instruction = Some (parse_instruction instruction).
Proof.
  intros Hlen. unfold parse_instruction, parse_instruction_fuel.
  rewrite !read_parts_fields by (rewrite delimit_length; lia).
  reflexivity.
Qed.

Lemma parse_instruction_tokenize (instruction : string) :
  parse_instruction instruction = Spec.tokenize instruction.
Proof.
  unfold parse_instruction, parse_instruction_fuel, Spec.tokenize.
  rewrite read_parts_fields by (rewrite delimit_length; lia).
  now rewrite delimit_respace.
Qed.

(** ** Tokens *)

Section Tokens.

Lemma all_chars_append p a b :
  all_chars p (a +:+ b) = all_chars p a && all_chars p b.
Proof.
  induction a as [|c a IH]; [reflexivity|].
  rewrite append_cons. simpl. now rewrite IH, andb_assoc.
Qed.

Lemma all_chars_ext (p q : ascii -> bool) s :
  (forall c, p c = q c) -> all_chars p s = all_chars q s.
Proof.
  intros Hpq. induction s as [|c s IH]; simpl; [reflexivity|].
  now rewrite Hpq, IH.
Qed.

Lemma is_word_snoc word c :
  word = EmptyString ∨ is_word word ->
  Chars.isspace c = false ->
  is_word (word +:+ String c EmptyString).
Proof.
  intros Hword Hc. split.
  - destruct word; discriminate.
  - rewrite all_chars_append. simpl. rewrite Hc. simpl.
    destruct Hword as [->|[_ ->]]; reflexivity.
Qed.

Lemma fields_words s : forall word,
  word = EmptyString ∨ is_word word ->
  Forall is_word (Spec.fields word s).
Proof.
  induction s as [|c s IH]; intros word Hword; simpl.
  - destruct word; [constructor|].
    destruct Hword as [?|?]; [discriminate|].
    constructor; [assumption | constructor].
  - destruct (Chars.isspace c) eqn:Hc.
    + destruct word.
      * apply IH. now left.
      * destruct Hword as [?|?]; [discriminate|].
        constructor; [assumption|]. apply IH. now left.
    + apply IH. right. now apply is_word_snoc.
Qed.

Lemma fields_nil s : forall word,
  Spec.fields word s = [] <->
  word = EmptyString ∧ all_chars Chars.isspace s = true.
Proof.
  induction s as [|c s IH]; intros word; simpl.
  - destruct word; split; (discriminate || tauto || (intros [? _]; discriminate)).
  - destruct (Chars.isspace c) eqn:Hc; simpl.
    + destruct word.
      * apply IH.
      * split; [discriminate | intros [? _]; discriminate].
    + rewrite IH. split; intros [H1 H2]; [|discriminate].
      destruct word; discriminate.
Qed.

Lemma map_trim_words (l : list string) :
  Forall is_word l -> trim <$> l = l.
Proof.
  induction 1 as [|w l Hw _ IH]; [reflexivity|].
  cbn. rewrite (trim_word w Hw). f_equal. exact IH.
Qed.

End Tokens.

(** Every token is a word, so [trim] never changes one. *)
Lemma parse_instruction_words (instruction : string) :
  Forall is_word (parse_instruction instruction).
Proof.
  rewrite parse_instruction_tokenize. unfold Spec.tokenize.
  rewrite map_trim_words; apply fields_words; now left.
Qed.

Lemma parse_instruction_fields (instruction : string) :
  parse_instruction instruction
  = Spec.fields EmptyString (Spec.respace instruction).
Proof.
  rewrite parse_instruction_tokenize. unfold Spec.tokenize.
  apply map_trim_words, fields_words. now left.
Qed.

Lemma parse_instruction_nil (instruction : string) :
  parse_instruction instruction = [] <->
  all_chars (fun c => Chars.isspace c || Spec.is_delimiter c) instruction = true.
Proof.
  rewrite parse_instruction_fields, fields_nil.
  unfold Spec.respace. rewrite all_chars_transform.
  rewrite (all_chars_ext _ (fun c => Chars.isspace c || Spec.is_delimiter c)).
  - tauto.
  - intros c. destruct (Spec.is_delimiter c); [|now rewrite orb_false_r].
    now rewrite orb_true_r.
Qed.

(** ** The accessors return, and what they return *)

Ltac run_monad :=
  unfold mbind, M_bind, mret, M_ret, member, subscript, print.

Section Accessors.

Lemma in_range_lookup (parts : list string) (slot : Z) :
  Decode.in_range parts slot = true ->
  is_Some (parts !! Z.to_nat (to_size_t slot)).
Proof.
  unfold Decode.in_range. intros [Hpos Hlt]%andb_prop.
  apply Z.ltb_lt in Hpos, Hlt. apply lookup_lt_is_Some.
  assert (0 <= to_size_t slot)%Z by (unfold to_size_t; apply Z.mod_pos_bound; lia).
  lia.
Qed.

Lemma token_at_Some_or_None (parts : list string) (slot : Z) :
  Decode.in_range parts slot = true ->
  exists part, parts !! Z.to_nat (to_size_t slot) = Some part
               ∧ Decode.token_at parts slot = Some part.
Proof.
  intros Hin. destruct (in_range_lookup _ _ Hin) as [part Hpart].
  exists part. split; [exact Hpart|].
  unfold Decode.token_at. now rewrite Hin.
Qed.

Lemma get_destination_register_returns (w : World) (index : nat) :
  get_destination_register index w
  = Returns (default EmptyString (destination_register (this w) index)) w.
Proof.
  unfold get_destination_register, destination_register, parts_of.
  run_monad.
  destruct (length (parsed_instructions (this w)) <=? index)%nat eqn:Hlen.
  - apply Nat.leb_le in Hlen. now rewrite (lookup_ge_None_2 _ _ Hlen).
  - apply Nat.leb_gt in Hlen.
    destruct (lookup_lt_is_Some_2 _ _ Hlen) as [parts ->].
    destruct parts as [|part0 rest]; [reflexivity|].
    cbn [length Nat.eqb lookup list_lookup default from_option id].
    unfold Decode.destination, Decode.roles.
    destruct (operand_map (this w) !! to_upper part0) as [[dest_index srcs]|];
      [|reflexivity].
    change ((0 <? dest_index)%Z
            && (to_size_t dest_index <? Z.of_nat (S (length rest)))%Z)
      with (Decode.in_range (part0 :: rest) dest_index).
    destruct (Decode.in_range (part0 :: rest) dest_index) eqn:Hin.
    + destruct (token_at_Some_or_None _ _ Hin) as (part & -> & ->).
      reflexivity.
    + unfold Decode.token_at. now rewrite Hin.
Qed.

Lemma push_sources_returns (parts : list string) (source_indices : list Z) :
  forall (sources : list string) (w : World),
    push_sources parts source_indices sources w
    = Returns (sources ++ omap (Decode.token_at parts) source_indices) w.
Proof.
  induction source_indices as [|src_index rest IH]; intros sources w.
  - cbn. run_monad. now rewrite app_nil_r.
  - cbn [push_sources omap list_omap].
    fold (Decode.in_range parts src_index).
    destruct (Decode.in_range parts src_index) eqn:Hin.
    + destruct (token_at_Some_or_None _ _ Hin) as (part & Hpart & Htok).
      run_monad. rewrite Hpart, IH.
      fold (omap (Decode.token_at parts) rest). rewrite Htok.
      now rewrite <- app_assoc.
    + rewrite IH. unfold Decode.token_at at 2. rewrite Hin. reflexivity.
Qed.

Lemma get_source_registers_returns (w : World) (index : nat) :
  get_source_registers index w
  = Returns (source_registers (this w) index) w.
Proof.
  unfold get_source_registers, source_registers, parts_of.
  run_monad.
  destruct (length (parsed_instructions (this w)) <=? index)%nat eqn:Hlen.
  - apply Nat.leb_le in Hlen. now rewrite (lookup_ge_None_2 _ _ Hlen).
  - apply Nat.leb_gt in Hlen.
    destruct (lookup_lt_is_Some_2 _ _ Hlen) as [parts ->].
    destruct parts as [|part0 rest]; [reflexivity|].
    cbn [length Nat.eqb lookup list_lookup default from_option id].
    unfold Decode.sources, Decode.source_slots, Decode.roles.
    destruct (operand_map (this w) !! to_upper part0) as [[dest_index srcs]|];
      [|reflexivity].
    now rewrite push_sources_returns.
Qed.

End Accessors.

(** ** Lists produced by nested loops *)

Section Flat_map.

Context {A B C : Type}.

Lemma flat_map_nil (f : A -> list B) (l : list A) :
  (forall x, x ∈ l -> f x = []) -> flat_map f l = [].
Proof.
  induction l as [|x l IH]; intros Hf; [reflexivity|].
  simpl. rewrite (Hf x) by left. apply IH.
  intros y Hy. apply Hf. now right.
Qed.

Lemma flat_map_fmap (g : B -> C) (f : A -> list B) (l : list A) :
  flat_map (fun x => g <$> f x) l = g <$> flat_map f l.
Proof.
  induction l as [|x l IH]; [reflexivity|].
  simpl. now rewrite fmap_app, IH.
Qed.

Lemma flat_map_ext_elem (f g : A -> list B) (l : list A) :
  (forall x, x ∈ l -> f x = g x) -> flat_map f l = flat_map g l.
Proof.
  induction l as [|x l IH]; intros Hfg; [reflexivity|].
  simpl. rewrite (Hfg x) by left. f_equal. apply IH.
  intros y Hy. apply Hfg. now right.
Qed.

Lemma elem_of_flat_map (f : A -> list B) (l : list A) (y : B) :
  y ∈ flat_map f l <-> exists x, x ∈ l ∧ y ∈ f x.
Proof.
  induction l as [|x l IH]; simpl.
  - split; [intros H; inversion H | intros (x & Hx & _); inversion Hx].
  - rewrite elem_of_app, IH. split.
    + intros [Hy|(z & Hz & Hy)]; [exists x | exists z]; split; auto;
        [left | now right].
    + intros (z & Hz & Hy). apply elem_of_cons in Hz as [->|Hz]; eauto.
Qed.

End Flat_map.

Lemma dependencies_found (ds : list Dependency) :
  dependencies (Dependency_Found <$> ds) = ds.
Proof. induction ds as [|d ds IH]; [reflexivity|]. cbn. now f_equal. Qed.

Lemma dependencies_app (out1 out2 : list Report_Item) :
  dependencies (out1 ++ out2) = dependencies out1 ++ dependencies out2.
Proof.
  induction out1 as [|x out1 IH]; [reflexivity|].
  destruct x; simpl; now rewrite IH.
Qed.

(** ** Running the scans *)

Section Emits.

Variable self : Dependency_Identifier.

Lemma emits_ret : emits self (mret tt) [].
Proof. intros printed. run_monad. now rewrite app_nil_r. Qed.

Lemma emits_print x : emits self (print x) [x].
Proof. intros printed. reflexivity. Qed.

Lemma emits_seq (m k : M unit) out1 out2 :
  emits self m out1 -> emits self k out2 ->
  emits self (m ;; k) (out1 ++ out2).
Proof.
  intros Hm Hk printed. unfold mbind, M_bind.
  rewrite Hm, Hk. now rewrite app_assoc.
Qed.

Lemma emits_bind {A} (m : M A) (a : A) (k : A -> M unit) out :
  yields self m a -> emits self (k a) out ->
  emits self (x ← m; k x) out.
Proof.
  intros Hm Hk printed. unfold mbind, M_bind. now rewrite Hm, Hk.
Qed.

Lemma yields_member {A} (field : Dependency_Identifier -> A) :
  yields self (member field) (field self).
Proof. intros printed. reflexivity. Qed.

Lemma yields_subscript {A} (v : list A) (i : nat) (a : A) :
  v !! i = Some a -> yields self (subscript v i) a.
Proof. intros Hv printed. unfold subscript. now rewrite Hv. Qed.

Lemma yields_destination (i : nat) :
  yields self (get_destination_register i)
         (default EmptyString (destination_register self i)).
Proof. intros printed. apply get_destination_register_returns. Qed.

Lemma yields_sources (i : nat) :
  yields self (get_source_registers i) (source_registers self i).
Proof. intros printed. apply get_source_registers_returns. Qed.

Lemma emits_for_each {A} (xs : list A) (body : A -> M unit)
    (out : A -> list Report_Item) :
  (forall x, x ∈ xs -> emits self (body x) (out x)) ->
  emits self (for_each xs body) (flat_map out xs).
Proof.
  induction xs as [|x xs IH]; intros Hbody.
  - apply emits_ret.
  - cbn [for_each flat_map]. apply emits_seq.
    + apply Hbody. left.
    + apply IH. intros y Hy. apply Hbody. now right.
Qed.

Lemma emits_for_each_found {A} (xs : list A) (body : A -> M unit)
    (found : A -> list Dependency) :
  (forall x, x ∈ xs -> emits self (body x) (Dependency_Found <$> found x)) ->
  emits self (for_each xs body) (Dependency_Found <$> flat_map found xs).
Proof.
  intros Hbody. rewrite <- flat_map_fmap. now apply emits_for_each.
Qed.

Hypothesis Hconsistent : consistent self.

Let n := length (parsed_instructions self).

Lemma text_of_lookup (i : nat) :
  i < n -> _instructions self !! i = Some (text_of self i).
Proof.
  intros Hi. unfold text_of.
  destruct (lookup_lt_is_Some_2 (_instructions self) i) as [text ->];
    [|reflexivity].
  unfold consistent in Hconsistent. now rewrite Hconsistent.
Qed.

Lemma emits_report (k : Hazard) (i j : nat) (reg_i reg_j : string) :
  i < n -> j < n ->
  emits self (report k i j reg_i reg_j)
        [Dependency_Found (finding self k i j reg_i reg_j)].
Proof.
  intros Hi Hj. unfold report.
  eapply emits_bind; [apply yields_member|].
  eapply emits_bind; [apply yields_subscript, text_of_lookup, Hi|].
  eapply emits_bind; [apply yields_subscript, text_of_lookup, Hj|].
  apply emits_print.
Qed.

(** The frame shared by the three scans: header, the empty case, the
    outer loop and the footer. *)
Lemma emits_frame (k : Hazard) (body : list (list string) -> nat -> M unit) :
  (forall i, i < n ->
     emits self (body (parsed_instructions self) i)
       (Dependency_Found <$>
          flat_map (between self k i) (seq (i + 1) (n - (i + 1))))) ->
  emits self
    (print (Identifying k);;
     parsed ← member parsed_instructions;
     if (length parsed =? 0)%nat then print No_Instructions
     else for_range 0 (length parsed) (body parsed);; print Analysis_Complete)
    (expected_report k self).
Proof.
  intros Hbody. unfold expected_report.
  change (Identifying k :: ?rest) with ([Identifying k] ++ rest).
  apply emits_seq; [apply emits_print|].
  eapply emits_bind; [apply yields_member|]. fold n.
  destruct (n =? 0)%nat; [apply emits_print|].
  apply emits_seq; [|apply emits_print].
  unfold for_range, findings, ordered_pairs. rewrite Nat.sub_0_r. fold n.
  apply emits_for_each_found. intros i Hi.
  apply elem_of_seq in Hi. apply Hbody. lia.
Qed.

Lemma emits_RAW : emits self find_RAW_dependencies (expected_report RAW self).
Proof.
  unfold find_RAW_dependencies. apply emits_frame. intros i Hi.
  eapply emits_bind; [apply yields_destination|].
  destruct (String.eqb (default EmptyString (destination_register self i))
                       EmptyString) eqn:Hdest.
  - rewrite flat_map_nil; [apply emits_ret|].
    intros j _. cbn [between]. now rewrite Hdest.
  - unfold for_range. apply emits_for_each_found. intros j Hj.
    apply elem_of_seq in Hj. cbn [between]. rewrite Hdest.
    eapply emits_bind; [apply yields_sources|].
    apply emits_for_each_found. intros src_reg _.
    destruct (String.eqb src_reg _).
    + apply emits_report; fold n; lia.
    + apply emits_ret.
Qed.

Lemma emits_WAR : emits self find_WAR_dependencies (expected_report WAR self).
Proof.
  unfold find_WAR_dependencies. apply emits_frame. intros i Hi.
  eapply emits_bind; [apply yields_sources|].
  destruct (source_registers self i) as [|src0 srcs] eqn:Hsrc.
  - cbn [length Nat.eqb].
    rewrite flat_map_nil; [apply emits_ret|].
    intros j _. cbn [between]. rewrite Hsrc.
    now destruct (String.eqb _ EmptyString).
  - cbn [length Nat.eqb].
    unfold for_range. apply emits_for_each_found. intros j Hj.
    apply elem_of_seq in Hj. cbn [between]. rewrite Hsrc.
    eapply emits_bind; [apply yields_destination|].
    destruct (String.eqb _ EmptyString); [apply emits_ret|].
    apply emits_for_each_found. intros src_reg _.
    destruct (String.eqb src_reg _).
    + apply emits_report; fold n; lia.
    + apply emits_ret.
Qed.

Lemma emits_WAW : emits self find_WAW_dependencies (expected_report WAW self).
Proof.
  unfold find_WAW_dependencies. apply emits_frame. intros i Hi.
  eapply emits_bind; [apply yields_destination|].
  destruct (String.eqb (default EmptyString (destination_register self i))
                       EmptyString) eqn:Hdest.
  - rewrite flat_map_nil; [apply emits_ret|].
    intros j _. cbn [between]. now rewrite Hdest.
  - unfold for_range. apply emits_for_each_found. intros j Hj.
    apply elem_of_seq in Hj. cbn [between]. rewrite Hdest.
    eapply emits_bind; [apply yields_destination|].
    destruct (String.eqb (default EmptyString (destination_register self i))
                         (default EmptyString (destination_register self j))).
    + apply emits_report; fold n; lia.
    + apply emits_ret.
Qed.

Lemma emits_find (k : Hazard) : emits self (find k) (expected_report k self).
Proof. destruct k; [apply emits_RAW | apply emits_WAR | apply emits_WAW]. Qed.

End Emits.

(** ** Ordered pairs of indices *)

Section Sorted_lists.

Context {A B : Type} (R : relation B).

Lemma StronglySorted_pairwise (l : list B) :
  (forall a b, a ∈ l -> b ∈ l -> R a b) -> StronglySorted R l.
Proof.
  induction l as [|x l IH]; intros Hall; constructor.
  - apply IH. intros a b Ha Hb. apply Hall; now right.
  - apply Forall_forall. intros b Hb. apply Hall; [left | now right].
Qed.

Lemma StronglySorted_flat_map (before : relation A) (f : A -> list B)
    (l : list A) :
  StronglySorted before l ->
  (forall x, x ∈ l -> StronglySorted R (f x)) ->
  (forall x y a b, before x y -> a ∈ f x -> b ∈ f y -> R a b) ->
  StronglySorted R (flat_map f l).
Proof.
  intros Hl Hin Hacross.
  induction Hl as [|x l Hl IH Hx]; simpl; [constructor|].
  apply StronglySorted_app_2.
  - intros a b Ha Hb. apply elem_of_flat_map in Hb as (y & Hy & Hb).
    rewrite Forall_forall in Hx. eapply Hacross; eauto.
  - apply Hin. left.
  - apply IH. intros y Hy. apply Hin. now right.
Qed.

Lemma seq_StronglySorted (len : nat) :
  forall a, StronglySorted lt (seq a len).
Proof.
  induction len as [|len IH]; intros a; simpl; constructor; [apply IH|].
  apply Forall_forall. intros x Hx. apply elem_of_seq in Hx. lia.
Qed.

End Sorted_lists.

Section Filter.

Context {A : Type} (P : A -> Prop) `{forall x, Decision (P x)}.

Lemma filter_none (l : list A) :
  (forall x, x ∈ l -> ¬ P x) -> filter P l = [].
Proof.
  induction l as [|x l IH]; intros Hl; [reflexivity|].
  rewrite filter_cons_False by (apply Hl; left).
  apply IH. intros y Hy. apply Hl. now right.
Qed.

Lemma filter_all (l : list A) :
  (forall x, x ∈ l -> P x) -> filter P l = l.
Proof.
  induction l as [|x l IH]; intros Hl; [reflexivity|].
  rewrite filter_cons_True by (apply Hl; left).
  f_equal. apply IH. intros y Hy. apply Hl. now right.
Qed.

Lemma filter_flat_map {I : Type} (f : I -> list A) (l : list I) :
  filter P (flat_map f l) = flat_map (fun x => filter P (f x)) l.
Proof.
  induction l as [|x l IH]; [reflexivity|].
  simpl. now rewrite filter_app, IH.
Qed.

End Filter.

Lemma flat_map_seq_only {A} (g : nat -> list A) (k len : nat) :
  forall a, a <= k < a + len ->
    (forall x, x ≠ k -> g x = []) ->
    flat_map g (seq a len) = g k.
Proof.
  induction len as [|len IH]; intros a Hk Hg; [lia|].
  simpl. destruct (decide (a = k)) as [->|Hne].
  - rewrite flat_map_nil; [apply app_nil_r|].
    intros x Hx. apply elem_of_seq in Hx. apply Hg. lia.
  - rewrite (Hg a Hne). simpl. apply IH; [lia | exact Hg].
Qed.

Section Ordered_pairs.

Context {A : Type} (body : nat -> nat -> list A) (n : nat).

Lemma elem_of_ordered_pairs (x : A) :
  x ∈ ordered_pairs n body <-> exists i j, i < j < n ∧ x ∈ body i j.
Proof.
  unfold ordered_pairs. rewrite elem_of_flat_map. split.
  - intros (i & Hi & Hx). apply elem_of_flat_map in Hx as (j & Hj & Hx).
    apply elem_of_seq in Hi, Hj. exists i, j. split; [lia | exact Hx].
  - intros (i & j & Hij & Hx). exists i. split; [apply elem_of_seq; lia|].
    apply elem_of_flat_map. exists j. split; [apply elem_of_seq; lia | exact Hx].
Qed.

Variable key : A -> nat * nat.
Hypothesis Hkey : forall i j x, x ∈ body i j -> key x = (i, j).

Lemma ordered_pairs_sorted :
  StronglySorted (fun a b => pair_le (key a) (key b)) (ordered_pairs n body).
Proof.
  unfold ordered_pairs.
  apply StronglySorted_flat_map with (before := lt).
  - apply seq_StronglySorted.
  - intros i _. apply StronglySorted_flat_map with (before := lt).
    + apply seq_StronglySorted.
    + intros j _. apply StronglySorted_pairwise. intros a b Ha Hb.
      rewrite (Hkey _ _ _ Ha), (Hkey _ _ _ Hb). right. simpl. lia.
    + intros j j' a b Hjj' Ha Hb.
      rewrite (Hkey _ _ _ Ha), (Hkey _ _ _ Hb). right. simpl. lia.
  - intros i i' a b Hii' Ha Hb.
    apply elem_of_flat_map in Ha as (j & _ & Ha).
    apply elem_of_flat_map in Hb as (j' & _ & Hb).
    rewrite (Hkey _ _ _ Ha), (Hkey _ _ _ Hb). left. simpl. lia.
Qed.

(** The findings of one pair, picked out of the whole list. *)
Lemma ordered_pairs_of_pair (i j : nat) :
  i < j < n ->
  filter (fun x => key x = (i, j)) (ordered_pairs n body) = body i j.
Proof.
  intros Hij. unfold ordered_pairs. rewrite filter_flat_map.
  rewrite (flat_map_seq_only _ i) by
    first [ lia
          | intros i' Hi'; apply filter_none; intros x Hx;
            apply elem_of_flat_map in Hx as (j' & _ & Hx);
            rewrite (Hkey _ _ _ Hx); congruence ].
  rewrite filter_flat_map.
  rewrite (flat_map_seq_only _ j) by
    first [ lia
          | intros j' Hj'; apply filter_none; intros x Hx;
            rewrite (Hkey _ _ _ Hx); congruence ].
  apply filter_all. intros x Hx. now apply Hkey.
Qed.

Lemma ordered_pairs_on : ordered_pairs n body = pairs_on (seq 0 n) body.
Proof.
  unfold ordered_pairs.
  enough (Hgen : forall len a, a + len = n ->
             flat_map (fun i => flat_map (body i) (seq (i + 1) (n - (i + 1))))
                      (seq a len)
             = pairs_on (seq a len) body) by (apply Hgen; lia).
  induction len as [|len IH]; intros a Ha; [reflexivity|].
  simpl. rewrite IH by lia.
  replace (a + 1) with (S a) by lia.
  replace (n - S a) with len by lia. reflexivity.
Qed.

End Ordered_pairs.

Section Pairs_on.

Context {A : Type}.

Lemma flat_map_over_fmap {I J} (g : I -> J) (f : J -> list A) (l : list I) :
  flat_map f (g <$> l) = flat_map (fun x => f (g x)) l.
Proof. induction l as [|x l IH]; [reflexivity|]. cbn. now rewrite <- IH. Qed.

Lemma pairs_on_fmap (g : nat -> nat) (body : nat -> nat -> list A) indices :
  pairs_on (g <$> indices) body
  = pairs_on indices (fun i j => body (g i) (g j)).
Proof.
  induction indices as [|i rest IH]; [reflexivity|].
  cbn [fmap list_fmap pairs_on].
  change (list_fmap _ _ g rest) with (g <$> rest).
  now rewrite flat_map_over_fmap, IH.
Qed.

Lemma pairs_on_skip (body : nat -> nat -> list A) (k : nat) l1 l2 :
  (forall j, body k j = []) -> (forall i, body i k = []) ->
  pairs_on (l1 ++ k :: l2) body = pairs_on (l1 ++ l2) body.
Proof.
  intros Hrow Hcol. induction l1 as [|i l1 IH]; simpl.
  - rewrite flat_map_nil; [reflexivity | intros j _; apply Hrow].
  - rewrite !flat_map_app. simpl. rewrite Hcol, IH. reflexivity.
Qed.

Lemma pairs_on_ext (body body' : nat -> nat -> list A) indices :
  (forall i j, body i j = body' i j) ->
  pairs_on indices body = pairs_on indices body'.
Proof.
  intros Hext. induction indices as [|i rest IH]; [reflexivity|].
  simpl. rewrite IH. f_equal. apply flat_map_ext_elem.
  intros j _. apply Hext.
Qed.

Lemma pairs_on_fmap_out {B} (h : A -> B) (body : nat -> nat -> list A) indices :
  h <$> pairs_on indices body
  = pairs_on indices (fun i j => h <$> body i j).
Proof.
  induction indices as [|i rest IH]; [reflexivity|].
  simpl. now rewrite fmap_app, IH, flat_map_fmap.
Qed.

Lemma seq_with_gap (k m : nat) :
  seq 0 k ++ seq (S k) m = bump k <$> seq 0 (k + m).
Proof.
  rewrite seq_app, fmap_app. f_equal.
  - rewrite <- (list_fmap_id (seq 0 k)) at 1.
    apply list_fmap_ext. intros i x Hx.
    apply lookup_seq in Hx as [-> Hlt]. unfold bump. simpl.
    destruct (Nat.ltb_spec i k); [reflexivity | lia].
  - simpl. rewrite <- fmap_S_seq.
    apply list_fmap_ext. intros i x Hx.
    apply lookup_seq in Hx as [-> Hlt]. unfold bump.
    destruct (Nat.ltb_spec (k + i) k); [lia | reflexivity].
Qed.

(** A line whose row and column of the pair table are empty can be
    taken out: the other findings stay, under their old numbers. *)
Lemma ordered_pairs_insert (body body' : nat -> nat -> list A)
    (shift : A -> A) (k m : nat) :
  (forall j, body k j = []) -> (forall i, body i k = []) ->
  (forall i j, body (bump k i) (bump k j) = shift <$> body' i j) ->
  ordered_pairs (k + S m) body = shift <$> ordered_pairs (k + m) body'.
Proof.
  intros Hrow Hcol Hshift.
  rewrite !ordered_pairs_on, seq_app. simpl.
  rewrite pairs_on_skip by assumption.
  rewrite seq_with_gap, pairs_on_fmap, pairs_on_fmap_out.
  now apply pairs_on_ext.
Qed.

End Pairs_on.

(** ** The opcode table *)

Section Table.

(** The table the constructor builds is the table of the
    specification, with slot 0 written for "none". *)
Lemma operand_table_roles (opcode : string) :
  operand_table !! opcode = Spec.encode <$> Spec.roles opcode.
Proof.
  unfold operand_table, operand_assignments.
  cbn [foldl]. unfold assign. cbn [fst snd].
  rewrite !lookup_insert, lookup_empty.
  repeat (case_decide; [subst opcode; reflexivity|]).
  unfold Spec.roles, Spec.opcode_table. cbn [Spec.roles_in].
  repeat (rewrite bool_decide_eq_false_2;
          [|rewrite !elem_of_cons, elem_of_nil; intuition congruence]).
  reflexivity.
Qed.

(** Slots of the specification's table are 1, 2 or 3. *)
Lemma roles_slots (opcode : string) (dest : option nat) (slots : list nat) :
  Spec.roles opcode = Some (dest, slots) ->
  (dest = None ∨ dest = Some 1) ∧ Forall (fun slot => 1 <= slot <= 3) slots.
Proof.
  unfold Spec.roles, Spec.opcode_table. cbn [Spec.roles_in].
  repeat (case_bool_decide;
          [intros [= <- <-]; split; [auto | repeat constructor; lia]|]).
  discriminate.
Qed.

Lemma to_size_t_small (slot : nat) :
  slot <= 3 -> to_size_t (Z.of_nat slot) = Z.of_nat slot.
Proof.
  intros Hslot. unfold to_size_t. apply Z.mod_small.
  split; [lia|]. apply Z.lt_le_trans with 4%Z; [lia|].
  now vm_compute.
Qed.

Lemma token_at_slot (parts : list string) (slot : nat) :
  1 <= slot <= 3 ->
  Decode.token_at parts (Z.of_nat slot) = parts !! slot.
Proof.
  intros Hslot. unfold Decode.token_at, Decode.in_range.
  rewrite to_size_t_small by lia. rewrite Nat2Z.id.
  destruct (Z.ltb_spec 0 (Z.of_nat slot)); [|lia]. simpl.
  destruct (Z.ltb_spec (Z.of_nat slot) (Z.of_nat (length parts)));
    [reflexivity|].
  symmetry. apply lookup_ge_None_2. lia.
Qed.

Lemma token_at_zero (parts : list string) : Decode.token_at parts 0 = None.
Proof. reflexivity. Qed.

Lemma destination_spec (parts : list string) :
  Decode.destination operand_table parts = Spec.destination_register parts.
Proof.
  unfold Decode.destination, Decode.roles, Spec.destination_register.
  destruct parts as [|part0 rest]; [reflexivity|].
  rewrite operand_table_roles.
  destruct (Spec.roles (to_upper part0)) as [[dest slots]|] eqn:Hroles;
    [|reflexivity].
  apply roles_slots in Hroles as [[->| ->] _]; cbn.
  - reflexivity.
  - now rewrite (token_at_slot _ 1) by lia.
Qed.

Lemma omap_token_at (parts : list string) (slots : list nat) :
  Forall (fun slot => 1 <= slot <= 3) slots ->
  omap (Decode.token_at parts) (Z.of_nat <$> slots)
  = omap (fun slot => parts !! slot) slots.
Proof.
  induction 1 as [|slot slots Hslot _ IH]; [reflexivity|].
  cbn. rewrite token_at_slot by exact Hslot.
  destruct (parts !! slot); [f_equal|]; exact IH.
Qed.

Lemma sources_spec (parts : list string) :
  Decode.sources operand_table parts = Spec.source_registers parts.
Proof.
  unfold Decode.sources, Decode.source_slots, Decode.roles,
    Spec.source_registers.
  destruct parts as [|part0 rest]; [reflexivity|].
  rewrite operand_table_roles.
  destruct (Spec.roles (to_upper part0)) as [[dest slots]|] eqn:Hroles;
    [|reflexivity].
  apply roles_slots in Hroles as [_ Hslots]. cbn.
  now apply omap_token_at.
Qed.

End Table.

(** ** What the constructor leaves *)

Section Constructor.

Variable instructions : list string.

Let self := new_Dependency_Identifier instructions.

Lemma push_back_all (l : list string) : forall parsed,
  foldl (fun parsed inst => parsed ++ [parse_instruction inst]) parsed l
  = parsed ++ (parse_instruction <$> l).
Proof.
  induction l as [|inst l IH]; intros parsed; simpl.
  - now rewrite app_nil_r.
  - rewrite IH. now rewrite <- app_assoc.
Qed.

Lemma parsed_instructions_new :
  parsed_instructions self = parse_instruction <$> instructions.
Proof. unfold self. cbn. now rewrite push_back_all. Qed.

Lemma consistent_new : consistent self.
Proof.
  unfold consistent. rewrite parsed_instructions_new, length_fmap.
  reflexivity.
Qed.

Lemma length_parsed_new :
  length (parsed_instructions self) = length instructions.
Proof. now rewrite parsed_instructions_new, length_fmap. Qed.

Lemma parts_of_new (index : nat) :
  parts_of self index
  = default [] (parse_instruction <$> instructions !! index).
Proof.
  unfold parts_of. now rewrite parsed_instructions_new, list_lookup_fmap.
Qed.

Lemma parts_of_words (index : nat) : Forall is_word (parts_of self index).
Proof.
  rewrite parts_of_new. destruct (instructions !! index); cbn.
  - apply parse_instruction_words.
  - constructor.
Qed.

Lemma token_at_word (parts : list string) (slot : Z) (r : string) :
  Forall is_word parts -> Decode.token_at parts slot = Some r ->
  r ≠ EmptyString.
Proof.
  intros Hwords Htok. unfold Decode.token_at in Htok.
  destruct (Decode.in_range parts slot); [|discriminate].
  rewrite Forall_forall in Hwords.
  apply list_elem_of_lookup_2 in Htok. now apply Hwords in Htok as [? _].
Qed.

(** A destination that is present is never the empty string, so the
    empty string the accessor returns always means "none". *)
Lemma destination_register_present (index : nat) (r : string) :
  destination_register self index = Some r -> r ≠ EmptyString.
Proof.
  unfold destination_register, Decode.destination.
  destruct (Decode.roles _ _) as [[dest_index srcs]|]; [|discriminate].
  apply token_at_word, parts_of_words.
Qed.

Lemma source_registers_slots (index : nat) (r : string) :
  r ∈ source_registers self index <->
  exists slot, slot ∈ source_slots self index
               ∧ slot_token self index slot = Some r.
Proof.
  unfold source_registers, Decode.sources, source_slots, slot_token.
  rewrite list_elem_of_omap. reflexivity.
Qed.

End Constructor.

(** ** What the inner loop prints for a pair *)

Section Between.

Variable self : Dependency_Identifier.

Lemma dependencies_expected_report (k : Hazard) :
  dependencies (expected_report k self) = findings k self.
Proof.
  unfold expected_report, findings. cbn [dependencies].
  destruct (length (parsed_instructions self)) as [|n]; [reflexivity|].
  cbn [Nat.eqb]. rewrite dependencies_app, dependencies_found.
  apply app_nil_r.
Qed.

Lemma between_pair (k : Hazard) (i j : nat) (d : Dependency) :
  d ∈ between self k i j -> pair_of d = (i, j).
Proof.
  destruct k; cbn [between]; intros Hd.
  - destruct (String.eqb _ EmptyString); [inversion Hd|].
    apply elem_of_flat_map in Hd as (src & _ & Hd).
    destruct (String.eqb src _); [|inversion Hd].
    apply list_elem_of_singleton in Hd as ->. reflexivity.
  - destruct (String.eqb _ EmptyString); [inversion Hd|].
    apply elem_of_flat_map in Hd as (src & _ & Hd).
    destruct (String.eqb src _); [|inversion Hd].
    apply list_elem_of_singleton in Hd as ->. reflexivity.
  - destruct (String.eqb _ EmptyString); [inversion Hd|].
    destruct (String.eqb _ _); [|inversion Hd].
    apply list_elem_of_singleton in Hd as ->. reflexivity.
Qed.

Lemma parts_of_beyond (index : nat) :
  length (parsed_instructions self) <= index -> parts_of self index = [].
Proof.
  intros Hlen. unfold parts_of. now rewrite (lookup_ge_None_2 _ _ Hlen).
Qed.

Lemma destination_register_index (index : nat) (r : string) :
  destination_register self index = Some r ->
  index < length (parsed_instructions self).
Proof.
  intros Hdest.
  destruct (Nat.lt_ge_cases index (length (parsed_instructions self)))
    as [Hlt|Hge]; [exact Hlt|].
  unfold destination_register in Hdest.
  rewrite (parts_of_beyond _ Hge) in Hdest. discriminate.
Qed.

Lemma source_slots_index (index : nat) (slot : Z) :
  slot ∈ source_slots self index ->
  index < length (parsed_instructions self).
Proof.
  intros Hslot.
  destruct (Nat.lt_ge_cases index (length (parsed_instructions self)))
    as [Hlt|Hge]; [exact Hlt|].
  unfold source_slots in Hslot.
  rewrite (parts_of_beyond _ Hge) in Hslot. inversion Hslot.
Qed.

(** One finding per slot that holds the register, in slot order. *)
Lemma flat_map_matching (token : Z -> option string) (r : string)
    (g : string -> Dependency) (slots : list Z) :
  flat_map (fun src => if String.eqb src r then [g src] else [])
           (omap token slots)
  = (fun _ => g r) <$> filter (fun slot => token slot = Some r) slots.
Proof.
  induction slots as [|slot slots IH]; [reflexivity|].
  cbn [omap list_omap]. fold (omap token slots).
  destruct (token slot) as [t|] eqn:Htok.
  - cbn [flat_map]. destruct (String.eqb_spec t r) as [->|Hne].
    + rewrite filter_cons_True by exact Htok. cbn. now rewrite IH.
    + rewrite filter_cons_False by congruence. exact IH.
  - rewrite filter_cons_False by congruence. exact IH.
Qed.

Hypothesis Hpresent : forall index r,
  destination_register self index = Some r -> r ≠ EmptyString.

Lemma present_eqb (index : nat) (r : string) :
  destination_register self index = Some r ->
  String.eqb r EmptyString = false.
Proof. intros Hr. apply String.eqb_neq. eapply Hpresent, Hr. Qed.

Lemma between_RAW (i j : nat) :
  between self RAW i j =
    match destination_register self i with
    | Some r =>
        (fun _ => finding self RAW i j r r)
          <$> filter (fun slot => slot_token self j slot = Some r)
                     (source_slots self j)
    | None => []
    end.
Proof.
  cbn [between].
  destruct (destination_register self i) as [r|] eqn:Hdest; [|reflexivity].
  cbn. rewrite (present_eqb _ _ Hdest).
  apply (flat_map_matching _ r (fun _ => finding self RAW i j r r)).
Qed.

Lemma between_WAR (i j : nat) :
  between self WAR i j =
    match destination_register self j with
    | Some r =>
        (fun _ => finding self WAR i j r r)
          <$> filter (fun slot => slot_token self i slot = Some r)
                     (source_slots self i)
    | None => []
    end.
Proof.
  cbn [between].
  destruct (destination_register self j) as [r|] eqn:Hdest; [|reflexivity].
  cbn. rewrite (present_eqb _ _ Hdest).
  apply (flat_map_matching _ r (fun src => finding self WAR i j src r)).
Qed.

Lemma between_WAW (i j : nat) :
  between self WAW i j =
    match destination_register self i, destination_register self j with
    | Some r, Some r' =>
        if decide (r = r') then [finding self WAW i j r r] else []
    | _, _ => []
    end.
Proof.
  cbn [between].
  destruct (destination_register self i) as [r|] eqn:Hi; [|reflexivity].
  cbn. rewrite (present_eqb _ _ Hi).
  destruct (destination_register self j) as [r'|] eqn:Hj; cbn.
  - destruct (String.eqb_spec r r') as [->|Hne].
    + now rewrite decide_True.
    + now rewrite decide_False.
  - now rewrite (present_eqb _ _ Hi).
Qed.

End Between.

(** ** A line the decoder does not know *)

Lemma bump_neq (k i : nat) : bump k i ≠ k.
Proof. unfold bump. destruct (Nat.ltb_spec i k); lia. Qed.

Lemma lookup_bump {A} (pre post : list A) (x : A) (i : nat) :
  (pre ++ x :: post) !! bump (length pre) i = (pre ++ post) !! i.
Proof.
  unfold bump. destruct (Nat.ltb_spec i (length pre)) as [Hlt|Hge].
  - now rewrite !lookup_app_l by exact Hlt.
  - rewrite !lookup_app_r by lia.
    replace (S i - length pre) with (S (i - length pre)) by lia.
    reflexivity.
Qed.

Section Insert.

Variables (pre post : list string) (line : string).

Local Abbreviation self := (new_Dependency_Identifier (pre ++ line :: post)).
Local Abbreviation self' := (new_Dependency_Identifier (pre ++ post)).
Local Abbreviation k := (length pre).

Lemma parts_of_bump (i : nat) : parts_of self (bump k i) = parts_of self' i.
Proof. now rewrite !parts_of_new, lookup_bump. Qed.

Lemma text_of_bump (i : nat) : text_of self (bump k i) = text_of self' i.
Proof. unfold text_of. cbn [_instructions new_Dependency_Identifier].
       now rewrite lookup_bump. Qed.

Lemma destination_register_bump (i : nat) :
  destination_register self (bump k i) = destination_register self' i.
Proof. unfold destination_register. now rewrite parts_of_bump. Qed.

Lemma source_registers_bump (i : nat) :
  source_registers self (bump k i) = source_registers self' i.
Proof. unfold source_registers. now rewrite parts_of_bump. Qed.

Lemma finding_bump (h : Hazard) (i j : nat) (a b : string) :
  finding self h (bump k i) (bump k j) a b
  = renumber k (finding self' h i j a b).
Proof.
  unfold finding, renumber. cbn. now rewrite !text_of_bump.
Qed.

Lemma between_bump (h : Hazard) (i j : nat) :
  between self h (bump k i) (bump k j) = renumber k <$> between self' h i j.
Proof.
  destruct h; cbn [between];
    rewrite ?destination_register_bump, ?source_registers_bump.
  - destruct (String.eqb _ EmptyString); [reflexivity|].
    rewrite <- flat_map_fmap. apply flat_map_ext_elem. intros src _.
    destruct (String.eqb src _); [|reflexivity].
    cbn. now rewrite finding_bump.
  - destruct (String.eqb _ EmptyString); [reflexivity|].
    rewrite <- flat_map_fmap. apply flat_map_ext_elem. intros src _.
    destruct (String.eqb src _); [|reflexivity].
    cbn. now rewrite finding_bump.
  - destruct (String.eqb _ EmptyString); [reflexivity|].
    destruct (String.eqb _ _); [|reflexivity].
    cbn. now rewrite finding_bump.
Qed.

Hypothesis Hunknown :
  known_opcode operand_table (parse_instruction line) = false.

Lemma parts_of_line : parts_of self k = parse_instruction line.
Proof. rewrite parts_of_new. now rewrite list_lookup_middle. Qed.

Lemma roles_unknown :
  Decode.roles operand_table (parse_instruction line) = None.
Proof.
  unfold known_opcode in Hunknown. unfold Decode.roles.
  destruct (parse_instruction line) as [|part0 rest]; [reflexivity|].
  apply bool_decide_eq_false_1 in Hunknown.
  destruct (operand_table !! to_upper part0) eqn:E; [|reflexivity].
  exfalso. apply Hunknown. eauto.
Qed.

Lemma destination_register_line : destination_register self k = None.
Proof.
  unfold destination_register, Decode.destination.
  rewrite parts_of_line. cbn [operand_map new_Dependency_Identifier].
  now rewrite roles_unknown.
Qed.

Lemma source_registers_line : source_registers self k = [].
Proof.
  unfold source_registers, Decode.sources, Decode.source_slots.
  rewrite parts_of_line. cbn [operand_map new_Dependency_Identifier].
  now rewrite roles_unknown.
Qed.

Lemma between_row (h : Hazard) (j : nat) : between self h k j = [].
Proof.
  destruct h; cbn [between];
    rewrite ?destination_register_line, ?source_registers_line;
    cbn; try reflexivity.
  now destruct (String.eqb _ EmptyString).
Qed.

Lemma between_column (h : Hazard) (i : nat) : between self h i k = [].
Proof.
  destruct h; cbn [between];
    rewrite ?destination_register_line, ?source_registers_line; cbn.
  - now destruct (String.eqb _ EmptyString).
  - reflexivity.
  - now destruct (String.eqb _ EmptyString).
Qed.

Lemma findings_insert (h : Hazard) :
  findings h self = renumber k <$> findings h self'.
Proof.
  unfold findings. rewrite !length_parsed_new.
  rewrite !length_app. cbn [length].
  apply ordered_pairs_insert.
  - apply between_row.
  - apply between_column.
  - apply between_bump.
Qed.

End Insert.

(** ** The three scans on a constructed scanner *)

Lemma find_new (k : Hazard) (instructions : list string)
    (printed : list Report_Item) :
  find k (scanner instructions printed)
  = Returns tt (scanner instructions
                  (printed ++ expected_report k
                                (new_Dependency_Identifier instructions))).
Proof. apply (emits_find _ (consistent_new instructions) k printed). Qed.

Lemma findings_new_sorted (k : Hazard) (instructions : list string) :
  StronglySorted (fun a b => pair_le (pair_of a) (pair_of b))
    (findings k (new_Dependency_Identifier instructions)).
Proof.
  apply ordered_pairs_sorted. intros i j d. apply between_pair.
Qed.

Lemma findings_new_of_pair (k : Hazard) (instructions : list string) (i j : nat) :
  i < j < length instructions ->
  filter (fun d => pair_of d = (i, j))
         (findings k (new_Dependency_Identifier instructions))
  = between (new_Dependency_Identifier instructions) k i j.
Proof.
  intros Hij. unfold findings. rewrite length_parsed_new.
  apply ordered_pairs_of_pair; [|exact Hij].
  intros i' j' d. apply between_pair.
Qed.

Lemma elem_of_findings_new (k : Hazard) (instructions : list string)
    (d : Dependency) :
  d ∈ findings k (new_Dependency_Identifier instructions) <->
  exists i j, i < j < length instructions
              ∧ d ∈ between (new_Dependency_Identifier instructions) k i j.
Proof.
  unfold findings. rewrite length_parsed_new. apply elem_of_ordered_pairs.
Qed.

Section Findings_of_a_scanner.

Variable instructions : list string.

Local Abbreviation self := (new_Dependency_Identifier instructions).

Lemma present_new (index : nat) (r : string) :
destination_register self index = Some r -> r ≠ EmptyString.
Proof. apply destination_register_present. Qed.

Lemma elem_of_findings_RAW (d : Dependency) :
d ∈ findings RAW self <->
exists i j r,
  i < j
  ∧ destination_register self i = Some r
  ∧ (exists slot, slot ∈ source_slots self j
                  ∧ slot_token self j slot = Some r)
  ∧ d = finding self RAW i j r r.
Proof.
rewrite elem_of_findings_new. split.
- intros (i & j & Hij & Hd). rewrite between_RAW in Hd by apply present_new.
  destruct (destination_register self i) as [r|] eqn:Hdest; [|inversion Hd].
  apply list_elem_of_fmap in Hd as (slot & -> & Hslot).
  apply list_elem_of_filter in Hslot as [Htok Hin].
  exists i, j, r. split_and!; eauto; lia.
- intros (i & j & r & Hij & Hdest & (slot & Hin & Htok) & ->).
  exists i, j. split.
  + split; [exact Hij|]. rewrite <- length_parsed_new.
    eapply source_slots_index, Hin.
  + rewrite between_RAW by apply present_new. rewrite Hdest.
    apply list_elem_of_fmap. exists slot. split; [reflexivity|].
    apply list_elem_of_filter. now split.
Qed.

Lemma elem_of_findings_WAR (d : Dependency) :
d ∈ findings WAR self <->
exists i j r,
  i < j
  ∧ (exists slot, slot ∈ source_slots self i
                  ∧ slot_token self i slot = Some r)
  ∧ destination_register self j = Some r
  ∧ d = finding self WAR i j r r.
Proof.
rewrite elem_of_findings_new. split.
- intros (i & j & Hij & Hd). rewrite between_WAR in Hd by apply present_new.
  destruct (destination_register self j) as [r|] eqn:Hdest; [|inversion Hd].
  apply list_elem_of_fmap in Hd as (slot & -> & Hslot).
  apply list_elem_of_filter in Hslot as [Htok Hin].
  exists i, j, r. split_and!; eauto; lia.
- intros (i & j & r & Hij & (slot & Hin & Htok) & Hdest & ->).
  exists i, j. split.
  + split; [exact Hij|]. rewrite <- length_parsed_new.
    eapply destination_register_index, Hdest.
  + rewrite between_WAR by apply present_new. rewrite Hdest.
    apply list_elem_of_fmap. exists slot. split; [reflexivity|].
    apply list_elem_of_filter. now split.
Qed.

Lemma elem_of_findings_WAW (d : Dependency) :
d ∈ findings WAW self <->
exists i j r,
  i < j
  ∧ destination_register self i = Some r
  ∧ destination_register self j = Some r
  ∧ d = finding self WAW i j r r.
Proof.
rewrite elem_of_findings_new. split.
- intros (i & j & Hij & Hd). rewrite between_WAW in Hd by apply present_new.
  destruct (destination_register self i) as [r|] eqn:Hi; [|inversion Hd].
  destruct (destination_register self j) as [r'|] eqn:Hj; [|inversion Hd].
  destruct (decide (r = r')) as [<-|]; [|inversion Hd].
  apply list_elem_of_singleton in Hd as ->.
  exists i, j, r. split_and!; eauto; lia.
- intros (i & j & r & Hij & Hi & Hj & ->).
  exists i, j. split.
  + split; [exact Hij|]. rewrite <- length_parsed_new.
    eapply destination_register_index, Hj.
  + rewrite between_WAW by apply present_new. rewrite Hi, Hj.
    rewrite decide_True by reflexivity. left.
Qed.

Lemma accessors_agree_new : accessors_agree self.
Proof.
intros index printed w. split_and!.
- apply get_destination_register_returns.
- apply get_source_registers_returns.
- apply present_new.
Qed.

End Findings_of_a_scanner.

(** C1. With the destination and the source slots of an instruction
    being what the two accessors return for it, the RAW scan returns,
    leaves the scanner as it was, and prints a finding [(i, j, r)]
    exactly when [i < j], the destination of instruction [i] is present
    and is [r], and [r] is the token of a configured source slot of
    instruction [j], the strings being equal character for character.  The findings of a pair [(i, j)] are one
    per matching source slot of [j], listed along the declared slots,
    and the whole list is in ascending [i], then ascending [j]. *)
Theorem RAW_scan_records (instructions : list string)
    (printed : list Report_Item) :
  let self := new_Dependency_Identifier instructions in
  accessors_agree self ∧
  exists out : list Report_Item,
    find_RAW_dependencies (scanner instructions printed)
    = Returns tt (scanner instructions (printed ++ out))
    ∧ (forall d, d ∈ dependencies out <->
         exists i j r,
           i < j
           ∧ destination_register self i = Some r
           ∧ (exists slot, slot ∈ source_slots self j
                           ∧ slot_token self j slot = Some r)
           ∧ d = finding self RAW i j r r)
    ∧ (forall i j, i < j < length instructions ->
         filter (fun d => pair_of d = (i, j)) (dependencies out)
         = match destination_register self i with
           | Some r =>
               (fun _ => finding self RAW i j r r)
                 <$> filter (fun slot => slot_token self j slot = Some r)
                            (source_slots self j)
           | None => []
           end)
    ∧ StronglySorted (fun a b => pair_le (pair_of a) (pair_of b))
                     (dependencies out).
Proof.
  intros self. subst self. split; [apply accessors_agree_new|].
  exists (expected_report RAW (new_Dependency_Identifier instructions)).
  split; [apply (find_new RAW)|].
  rewrite dependencies_expected_report. split_and!.
  - apply elem_of_findings_RAW.
  - intros i j Hij. rewrite findings_new_of_pair by exact Hij.
    apply between_RAW, present_new.
  - apply findings_new_sorted.
Qed.

Lemma RAW_scan_records_witness :
  exists out : list Report_Item,
    find_RAW_dependencies
      (scanner ["ADD R1, R2, R3"; "add R4, R1, R1"; "SUB R5, r1, R4"] [])
    = Returns tt
        (scanner ["ADD R1, R2, R3"; "add R4, R1, R1"; "SUB R5, r1, R4"] out)
    ∧ filter (fun d => pair_of d = (0, 1)) (dependencies out)
      = [ {| hazard := RAW;
             earlier := 0; earlier_text := "ADD R1, R2, R3";
             earlier_register := "R1";
             later := 1; later_text := "add R4, R1, R1";
             later_register := "R1" |};
          {| hazard := RAW;
             earlier := 0; earlier_text := "ADD R1, R2, R3";
             earlier_register := "R1";
             later := 1; later_text := "add R4, R1, R1";
             later_register := "R1" |} ]
    ∧ filter (fun d => pair_of d = (0, 2)) (dependencies out) = [].
Proof.
  destruct (RAW_scan_records
              ["ADD R1, R2, R3"; "add R4, R1, R1"; "SUB R5, r1, R4"] [])
    as (_ & out & Hrun & _ & Hpair & _).
  exists out. split; [exact Hrun|]. split.
  - rewrite (Hpair 0 1) by (simpl; lia). vm_compute. reflexivity.
  - rewrite (Hpair 0 2) by (simpl; lia). vm_compute. reflexivity.
Defined.

(** C2. With the destination and the source slots of an instruction
    being what the two accessors return for it, the WAR scan returns,
    leaves the scanner as it was, and prints a finding [(i, j, r)]
    exactly when [i < j], [r] is the token of a configured source slot
    of instruction [i], and the destination of instruction [j] is
    present and is [r].  An instruction without
    source registers is the earlier side of no finding; the findings of
    a pair are one per matching source slot of [i], along the declared
    slots, and the whole list is in ascending [i], then ascending [j]. *)
Theorem WAR_scan_records (instructions : list string)
    (printed : list Report_Item) :
  let self := new_Dependency_Identifier instructions in
  accessors_agree self ∧
  exists out : list Report_Item,
    find_WAR_dependencies (scanner instructions printed)
    = Returns tt (scanner instructions (printed ++ out))
    ∧ (forall d, d ∈ dependencies out <->
         exists i j r,
           i < j
           ∧ (exists slot, slot ∈ source_slots self i
                           ∧ slot_token self i slot = Some r)
           ∧ destination_register self j = Some r
           ∧ d = finding self WAR i j r r)
    ∧ (forall d, d ∈ dependencies out ->
         source_registers self (earlier d) ≠ [])
    ∧ (forall i j, i < j < length instructions ->
         filter (fun d => pair_of d = (i, j)) (dependencies out)
         = match destination_register self j with
           | Some r =>
               (fun _ => finding self WAR i j r r)
                 <$> filter (fun slot => slot_token self i slot = Some r)
                            (source_slots self i)
           | None => []
           end)
    ∧ StronglySorted (fun a b => pair_le (pair_of a) (pair_of b))
                     (dependencies out).
Proof.
  intros self. subst self. split; [apply accessors_agree_new|].
  exists (expected_report WAR (new_Dependency_Identifier instructions)).
  split; [apply (find_new WAR)|].
  rewrite dependencies_expected_report. split_and!.
  - apply elem_of_findings_WAR.
  - intros d Hd.
    apply elem_of_findings_WAR in Hd as (i & j & r & _ & Hsrc & _ & ->).
    cbn [finding earlier]. intros Hnil.
    apply source_registers_slots in Hsrc.
    rewrite Hnil in Hsrc. inversion Hsrc.
  - intros i j Hij. rewrite findings_new_of_pair by exact Hij.
    apply between_WAR, present_new.
  - apply findings_new_sorted.
Qed.

Lemma WAR_scan_records_witness :
  exists out : list Report_Item,
    find_WAR_dependencies (scanner ["ADD R1, R2, R3"; "SUB R2, R4, R5"] [])
    = Returns tt (scanner ["ADD R1, R2, R3"; "SUB R2, R4, R5"] out)
    ∧ filter (fun d => pair_of d = (0, 1)) (dependencies out)
      = [ {| hazard := WAR;
             earlier := 0; earlier_text := "ADD R1, R2, R3";
             earlier_register := "R2";
             later := 1; later_text := "SUB R2, R4, R5";
             later_register := "R2" |} ].
Proof.
  destruct (WAR_scan_records ["ADD R1, R2, R3"; "SUB R2, R4, R5"] [])
    as (_ & out & Hrun & _ & _ & Hpair & _).
  exists out. split; [exact Hrun|].
  rewrite (Hpair 0 1) by (simpl; lia). vm_compute. reflexivity.
Defined.

(** C3. With the destination of an instruction being what the
    accessor returns for it, the WAW scan returns, leaves the scanner
    as it was, and prints a finding [(i, j, r)] exactly when [i < j]
    and the destinations of both instructions are present and are the
    same string [r].  Hence a
    finding never pairs an instruction with one that has no destination,
    never has [i >= j], and never pairs an instruction with itself; a
    pair gives at most one finding and the list is in ascending [i],
    then ascending [j]. *)
Theorem WAW_scan_records (instructions : list string)
    (printed : list Report_Item) :
  let self := new_Dependency_Identifier instructions in
  accessors_agree self ∧
  exists out : list Report_Item,
    find_WAW_dependencies (scanner instructions printed)
    = Returns tt (scanner instructions (printed ++ out))
    ∧ (forall d, d ∈ dependencies out <->
         exists i j r,
           i < j
           ∧ destination_register self i = Some r
           ∧ destination_register self j = Some r
           ∧ d = finding self WAW i j r r)
    ∧ (forall d, d ∈ dependencies out ->
         earlier d < later d
         ∧ is_Some (destination_register self (earlier d))
         ∧ is_Some (destination_register self (later d)))
    ∧ (forall i j, i < j < length instructions ->
         filter (fun d => pair_of d = (i, j)) (dependencies out)
         = match destination_register self i, destination_register self j with
           | Some r, Some r' =>
               if decide (r = r') then [finding self WAW i j r r] else []
           | _, _ => []
           end)
    ∧ StronglySorted (fun a b => pair_le (pair_of a) (pair_of b))
                     (dependencies out).
Proof.
  intros self. subst self. split; [apply accessors_agree_new|].
  exists (expected_report WAW (new_Dependency_Identifier instructions)).
  split; [apply (find_new WAW)|].
  rewrite dependencies_expected_report. split_and!.
  - apply elem_of_findings_WAW.
  - intros d Hd.
    apply elem_of_findings_WAW in Hd as (i & j & r & Hij & Hi & Hj & ->).
    cbn [finding earlier later]. rewrite Hi, Hj. eauto.
  - intros i j Hij. rewrite findings_new_of_pair by exact Hij.
    apply between_WAW, present_new.
  - apply findings_new_sorted.
Qed.

Lemma WAW_scan_records_witness :
  exists out : list Report_Item,
    find_WAW_dependencies
      (scanner ["ADD R1, R2, R3"; "SD R1, 0(R3)"; "MUL R1, R4, R5"] [])
    = Returns tt
        (scanner ["ADD R1, R2, R3"; "SD R1, 0(R3)"; "MUL R1, R4, R5"] out)
    ∧ filter (fun d => pair_of d = (0, 2)) (dependencies out)
      = [ {| hazard := WAW;
             earlier := 0; earlier_text := "ADD R1, R2, R3";
             earlier_register := "R1";
             later := 2; later_text := "MUL R1, R4, R5";
             later_register := "R1" |} ]
    ∧ filter (fun d => pair_of d = (0, 1)) (dependencies out) = [].
Proof.
  destruct (WAW_scan_records
              ["ADD R1, R2, R3"; "SD R1, 0(R3)"; "MUL R1, R4, R5"] [])
    as (_ & out & Hrun & _ & _ & Hpair & _).
  exists out. split; [exact Hrun|]. split.
  - rewrite (Hpair 0 2) by (simpl; lia). vm_compute. reflexivity.
  - rewrite (Hpair 0 1) by (simpl; lia). vm_compute. reflexivity.
Defined.

(** ** The tokenizer *)

(** C4, as stated, at the line ["FOO R1"]: no token of it is an opcode
    of the table, and yet two tokens come out.  The tokenizer never
    consults the opcode table. *)
Lemma tokenize_unknown_opcode_counterexample :
  ¬ (forall raw : string,
       raw = EmptyString ∨ contains_opcode operand_table raw = false ->
       parse_instruction raw = []).
Proof.
  intros Hall.
  assert (Hnone : contains_opcode operand_table "FOO R1" = false)
    by (vm_compute; reflexivity).
  specialize (Hall "FOO R1" (or_intror Hnone)).
  vm_compute in Hall. discriminate Hall.
Qed.

(** C4, amended.  [parse_instruction] replaces each of the four
    delimiters by one space and splits on runs of white space, each
    token trimmed; the loop ends for every input, and the result is
    empty exactly when every character of the line is white space or a
    delimiter, as for the empty line.  The two lines of the
    specification give the tokens it lists. *)
Theorem parse_instruction_tokenizes (raw : string) :
  parse_instruction raw = Spec.tokenize raw
  ∧ (forall fuel : nat,
       String.length raw < fuel ->
       parse_instruction_fuel fuel raw = Some (parse_instruction raw))
  ∧ (parse_instruction raw = [] <->
     all_chars (fun c => Chars.isspace c || Spec.is_delimiter c) raw = true)
  ∧ Forall is_word (parse_instruction raw)
  ∧ parse_instruction "LD R1, 0(R2)" = ["LD"; "R1"; "0"; "R2"]
  ∧ parse_instruction "BEQ R1,R2,LABEL" = ["BEQ"; "R1"; "R2"; "LABEL"]
  ∧ parse_instruction EmptyString = [].
Proof.
  split_and!.
  - apply parse_instruction_tokenize.
  - intros fuel. apply parse_instruction_fuel_enough.
  - apply parse_instruction_nil.
  - apply parse_instruction_words.
  - reflexivity.
  - reflexivity.
  - reflexivity.
Qed.

Lemma parse_instruction_tokenizes_witness :
  parse_instruction_fuel 7 "FOO R1" = Some ["FOO"; "R1"]
  ∧ parse_instruction ", ;( )" = [].
Proof.
  destruct (parse_instruction_tokenizes "FOO R1") as (_ & Hfuel & _).
  destruct (parse_instruction_tokenizes ", ;( )") as (_ & _ & Hnil & _).
  split.
  - rewrite (Hfuel 7) by (simpl; lia). reflexivity.
  - apply Hnil. reflexivity.
Defined.

(** ** The accessors *)

(** C5.  On any token sequence, with the table the constructor builds,
    [get_destination_register] returns what the specification's
    [destination_register] describes: nothing (the empty string) when
    the opcode, taken in upper case, is absent from the table, when its
    destination slot is "none", or when the slot is past the last
    token; otherwise the token at the slot, unchanged.  Tokens that
    come from the tokenizer are never empty, so the empty string is not
    a register.  ["ADD R1, R2, R3"] gives ["R1"], ["SD R1, 0(R3)"]
    nothing, and ["add r1, r2, r3"] gives ["r1"]. *)
Theorem get_destination_register_decodes (texts : list string)
    (parsed : list (list string)) (printed : list Report_Item)
    (index : nat) (tokens : list string) :
  let w := {| this := {| _instructions := texts;
                         parsed_instructions := parsed;
                         operand_map := operand_table |};
              cout := printed |} in
  parsed !! index = Some tokens ->
  get_destination_register index w
  = Returns (default EmptyString (Spec.destination_register tokens)) w
  ∧ (forall r, Forall is_word tokens ->
               Spec.destination_register tokens = Some r -> r ≠ EmptyString)
  ∧ get_destination_register 0 (scanner ["ADD R1, R2, R3"] printed)
    = Returns "R1" (scanner ["ADD R1, R2, R3"] printed)
  ∧ get_destination_register 0 (scanner ["SD R1, 0(R3)"] printed)
    = Returns EmptyString (scanner ["SD R1, 0(R3)"] printed)
  ∧ get_destination_register 0 (scanner ["add r1, r2, r3"] printed)
    = Returns "r1" (scanner ["add r1, r2, r3"] printed).
Proof.
  intros w Htokens. split_and!.
  - rewrite get_destination_register_returns. f_equal.
    unfold destination_register, parts_of. cbn. rewrite Htokens. cbn.
    now rewrite destination_spec.
  - intros r Hwords Hdest. rewrite <- destination_spec in Hdest.
    unfold Decode.destination in Hdest.
    destruct (Decode.roles _ _) as [[dest_index srcs]|]; [|discriminate].
    eapply token_at_word; eauto.
  - now rewrite get_destination_register_returns.
  - now rewrite get_destination_register_returns.
  - now rewrite get_destination_register_returns.
Qed.

Lemma get_destination_register_decodes_witness :
  get_destination_register 1
    {| this := {| _instructions := [];
                  parsed_instructions := [["LD"; "R1"; "0"; "R2"]; ["MUL"]];
                  operand_map := operand_table |};
       cout := [] |}
  = Returns EmptyString
      {| this := {| _instructions := [];
                    parsed_instructions := [["LD"; "R1"; "0"; "R2"]; ["MUL"]];
                    operand_map := operand_table |};
         cout := [] |}.
Proof.
  exact (proj1 (get_destination_register_decodes
                  [] [["LD"; "R1"; "0"; "R2"]; ["MUL"]] [] 1 ["MUL"]
                  eq_refl)).
Defined.

(** C6.  On any token sequence, with the table the constructor builds,
    [get_source_registers] returns what the specification's
    [source_registers] describes: along the declared source slots of
    the opcode, the token at each slot that is within bounds, a slot
    past the last token being skipped.  ["SD R1, 0(R3)"] gives
    ["R1"; "R3"], ["LD R1, 0(R2)"] gives nothing, and a line cut short
    gives the sources it still has. *)
Theorem get_source_registers_decodes (texts : list string)
    (parsed : list (list string)) (printed : list Report_Item)
    (index : nat) (tokens : list string) :
  let w := {| this := {| _instructions := texts;
                         parsed_instructions := parsed;
                         operand_map := operand_table |};
              cout := printed |} in
  parsed !! index = Some tokens ->
  get_source_registers index w = Returns (Spec.source_registers tokens) w
  ∧ get_source_registers 0 (scanner ["SD R1, 0(R3)"] printed)
    = Returns ["R1"; "R3"] (scanner ["SD R1, 0(R3)"] printed)
  ∧ get_source_registers 0 (scanner ["LD R1, 0(R2)"] printed)
    = Returns [] (scanner ["LD R1, 0(R2)"] printed)
  ∧ get_source_registers 0 (scanner ["ADD R1, R2"] printed)
    = Returns ["R2"] (scanner ["ADD R1, R2"] printed).
Proof.
  intros w Htokens. split_and!.
  - rewrite get_source_registers_returns. f_equal.
    unfold source_registers, parts_of. cbn. rewrite Htokens. cbn.
    now rewrite sources_spec.
  - now rewrite get_source_registers_returns.
  - now rewrite get_source_registers_returns.
  - now rewrite get_source_registers_returns.
Qed.

Lemma get_source_registers_decodes_witness :
  get_source_registers 0
    {| this := {| _instructions := [];
                  parsed_instructions := [["beq"; "R1"]; ["MUL"]];
                  operand_map := operand_table |};
       cout := [] |}
  = Returns ["R1"]
      {| this := {| _instructions := [];
                    parsed_instructions := [["beq"; "R1"]; ["MUL"]];
                    operand_map := operand_table |};
         cout := [] |}.
Proof.
  exact (proj1 (get_source_registers_decodes
                  [] [["beq"; "R1"]; ["MUL"]] [] 0 ["beq"; "R1"] eq_refl)).
Defined.

(** C10.  In every world, whatever the table and the parsed lines hold,
    both accessors return and never fault on a subscript: the guard
    before each access implies the access is within bounds.  For an
    index past the last instruction and for an instruction without
    tokens they return the empty string and the empty sequence. *)
Theorem accessors_never_fault (w : World) (index : nat) :
  (exists r : string,
     get_destination_register index w = Returns r w
     ∧ (length (parsed_instructions (this w)) <= index -> r = EmptyString)
     ∧ (parsed_instructions (this w) !! index = Some [] -> r = EmptyString))
  ∧ (exists rs : list string,
       get_source_registers index w = Returns rs w
       ∧ (length (parsed_instructions (this w)) <= index -> rs = [])
       ∧ (parsed_instructions (this w) !! index = Some [] -> rs = []))
  ∧ (forall (parts : list string) (slot : Z),
       Decode.in_range parts slot = true ->
       is_Some (parts !! Z.to_nat (to_size_t slot))).
Proof.
  split_and!.
  - eexists. split; [apply get_destination_register_returns|]. split.
    + intros Hlen. unfold destination_register.
      now rewrite parts_of_beyond.
    + intros Hnil. unfold destination_register, parts_of. now rewrite Hnil.
  - eexists. split; [apply get_source_registers_returns|]. split.
    + intros Hlen. unfold source_registers.
      now rewrite parts_of_beyond.
    + intros Hnil. unfold source_registers, parts_of. now rewrite Hnil.
  - apply in_range_lookup.
Qed.

Lemma accessors_never_fault_witness :
  let odd := {| this := {| _instructions := [];
                           parsed_instructions := [["JMP"; "R1"]; []];
                           operand_map :=
                             {[ "JMP" := ((-1)%Z, [7%Z; (-2)%Z; (2 ^ 64 + 1)%Z]) ]} |};
                cout := [] |} in
  (exists r, get_destination_register 0 odd = Returns r odd)
  ∧ (exists r, get_destination_register 5 odd = Returns r odd ∧ r = EmptyString)
  ∧ (exists rs, get_source_registers 1 odd = Returns rs odd ∧ rs = [])
  ∧ (exists rs, get_source_registers 0 odd = Returns rs odd).
Proof.
  intros odd.
  destruct (accessors_never_fault odd 0) as ((r0 & Hr0 & _) & (rs0 & Hrs0 & _) & _).
  destruct (accessors_never_fault odd 5) as ((r5 & Hr5 & Hbeyond & _) & _).
  destruct (accessors_never_fault odd 1) as (_ & (rs1 & Hrs1 & _ & Hnil) & _).
  split_and!.
  - exists r0. exact Hr0.
  - exists r5. split; [exact Hr5|]. apply Hbeyond. simpl. lia.
  - exists rs1. split; [exact Hrs1|]. apply Hnil. reflexivity.
  - exists rs0. exact Hrs0.
Defined.

(** ** Robustness and repeatability *)

(** C7.  A line whose opcode, in upper case, is not in the table has no
    destination and no sources; no scan prints a finding with it on
    either side; and it keeps its index: the findings of the sequence
    are those of the sequence without the line, each instruction after
    it numbered one higher. *)
Theorem unknown_opcode_invisible (pre post : list string) (line : string)
    (h : Hazard) (printed : list Report_Item) :
  known_opcode operand_table (parse_instruction line) = false ->
  let instructions := pre ++ line :: post in
  let k := length pre in
  get_destination_register k (scanner instructions printed)
  = Returns EmptyString (scanner instructions printed)
  ∧ get_source_registers k (scanner instructions printed)
    = Returns [] (scanner instructions printed)
  ∧ exists out out' : list Report_Item,
      find h (scanner instructions printed)
      = Returns tt (scanner instructions (printed ++ out))
      ∧ find h (scanner (pre ++ post) printed)
        = Returns tt (scanner (pre ++ post) (printed ++ out'))
      ∧ (forall d, d ∈ dependencies out -> earlier d ≠ k ∧ later d ≠ k)
      ∧ dependencies out = renumber k <$> dependencies out'.
Proof.
  intros Hunknown instructions k. subst instructions k. split_and!.
  - rewrite get_destination_register_returns. cbn [this scanner].
    now rewrite destination_register_line.
  - rewrite get_source_registers_returns. cbn [this scanner].
    now rewrite source_registers_line.
  - exists (expected_report h (new_Dependency_Identifier (pre ++ line :: post))),
           (expected_report h (new_Dependency_Identifier (pre ++ post))).
    rewrite !dependencies_expected_report.
    rewrite findings_insert by exact Hunknown.
    split_and!; [apply find_new | apply find_new | | reflexivity].
    intros d Hd. apply list_elem_of_fmap in Hd as (d' & -> & _).
    cbn [renumber earlier later]. split; apply bump_neq.
Qed.

Lemma unknown_opcode_invisible_witness :
  exists out out' : list Report_Item,
    find RAW (scanner ["ADD R1, R2, R3"; "NOP R1"; "SUB R4, R1, R5"] [])
    = Returns tt (scanner ["ADD R1, R2, R3"; "NOP R1"; "SUB R4, R1, R5"] out)
    ∧ find RAW (scanner ["ADD R1, R2, R3"; "SUB R4, R1, R5"] [])
      = Returns tt (scanner ["ADD R1, R2, R3"; "SUB R4, R1, R5"] out')
    ∧ dependencies out = renumber 1 <$> dependencies out'.
Proof.
  destruct (unknown_opcode_invisible
              ["ADD R1, R2, R3"] ["SUB R4, R1, R5"] "NOP R1" RAW [] eq_refl)
    as (_ & _ & out & out' & Hrun & Hrun' & _ & Hsame).
  exists out, out'. split; [exact Hrun|]. split; [exact Hrun'|]. exact Hsame.
Defined.

(** C8.  On a scanner constructed with no instructions each scan prints
    its header line and then the line "No instructions to analyze.",
    nothing else, and so no finding. *)
Theorem empty_scanner_reports_no_instructions (h : Hazard)
    (printed : list Report_Item) :
  find h (scanner [] printed)
  = Returns tt (scanner [] (printed ++ [Identifying h; No_Instructions]))
  ∧ dependencies [Identifying h; No_Instructions] = []
  ∧ Render.text [Identifying h; No_Instructions]
    = "--- Identifying " +:+ Render.name h +:+ " Dependencies ---"
      +:+ Render.endl +:+ "No instructions to analyze." +:+ Render.endl.
Proof.
  split_and!.
  - rewrite find_new. reflexivity.
  - reflexivity.
  - destruct h; reflexivity.
Qed.

(** C9.  The scans only read the scanner.  For every scanner there is
    one report per kind of hazard such that any sequence of scans, in
    any order and with any repetitions, returns with the scanner as it
    was constructed and with the report of each call appended to the
    stream in the order of the calls; each report lists its findings in
    ascending [i], then ascending [j]. *)
Theorem scans_read_only_and_repeatable (instructions : list string) :
  exists report_of_kind : Hazard -> list Report_Item,
    (forall (calls : list Hazard) (printed : list Report_Item),
       for_each calls find (scanner instructions printed)
       = Returns tt
           (scanner instructions (printed ++ flat_map report_of_kind calls)))
    ∧ (forall (h : Hazard) (printed : list Report_Item),
         find h (scanner instructions printed)
         = Returns tt (scanner instructions (printed ++ report_of_kind h)))
    ∧ (forall h : Hazard,
         StronglySorted (fun a b => pair_le (pair_of a) (pair_of b))
                        (dependencies (report_of_kind h))).
Proof.
  exists (fun h => expected_report h (new_Dependency_Identifier instructions)).
  split_and!.
  - intros calls printed.
    apply (emits_for_each (new_Dependency_Identifier instructions)).
    intros h _. apply emits_find, consistent_new.
  - intros h printed. apply find_new.
  - intros h. rewrite dependencies_expected_report.
    apply findings_new_sorted.
Qed.

(** * Further properties of the code *)

(** ** [trim] *)

Section Trim.

Lemma find_first_not_of_None (s : string) :
find_first_not_of trim_blanks s = None <-> all_chars is_blank s = true.
Proof.
induction s as [|c s IH]; [cbn; tauto|].
cbn [find_first_not_of all_chars]. unfold is_blank at 1.
destruct (Chars.among c trim_blanks); cbn [andb].
- rewrite <- IH. destruct (find_first_not_of trim_blanks s); cbn;
    split; congruence.
- split; discriminate.
Qed.

Lemma find_last_not_of_None (s : string) :
find_last_not_of trim_blanks s = None <-> all_chars is_blank s = true.
Proof.
induction s as [|c s IH]; [cbn; tauto|].
cbn [find_last_not_of all_chars]. unfold is_blank at 1.
destruct (find_last_not_of trim_blanks s) as [k|].
- split; [discriminate|]. intros [_ Hs]%andb_prop.
  apply IH in Hs. discriminate.
- destruct (Chars.among c trim_blanks); cbn [andb].
  + split; [intros _; now apply IH | reflexivity].
  + split; discriminate.
Qed.

Lemma substring_zero (s : string) : substring 0 0 s = EmptyString.
Proof. now destruct s. Qed.

(** Up to the last character that is not a blank, and what follows. *)
Lemma find_last_not_of_split (s : string) : forall last,
find_last_not_of trim_blanks s = Some last ->
exists init d trail,
  substring 0 (last + 1) s = init +:+ String d EmptyString
  ∧ s = substring 0 (last + 1) s +:+ trail
  ∧ is_blank d = false
  ∧ all_chars is_blank trail = true.
Proof.
induction s as [|c s IH]; intros last Hlast; [discriminate|].
cbn [find_last_not_of] in Hlast.
destruct (find_last_not_of trim_blanks s) as [k|] eqn:Hs.
- injection Hlast as <-.
  destruct (IH k eq_refl) as (init & d & trail & Hsub & Hsplit & Hd & Htrail).
  exists (String c init), d, trail.
  change (substring 0 (S k + 1) (String c s))
    with (String c (substring 0 (k + 1) s)).
  rewrite !append_cons, <- Hsub, <- Hsplit. auto.
- destruct (Chars.among c trim_blanks) eqn:Hc; [discriminate|].
  injection Hlast as <-.
  exists EmptyString, c, s.
  change (substring 0 (0 + 1) (String c s))
    with (String c (substring 0 0 s)).
  rewrite substring_zero. split_and!; try reflexivity.
  + exact Hc.
  + now apply find_last_not_of_None.
Qed.

Lemma trim_cons_blank (c : ascii) (s : string) :
is_blank c = true -> all_chars is_blank s = false ->
trim (String c s) = trim s.
Proof.
intros Hc Hs. unfold trim. cbn [find_first_not_of find_last_not_of].
unfold is_blank in Hc. rewrite Hc.
destruct (find_first_not_of trim_blanks s) as [first|] eqn:Hfirst.
- destruct (find_last_not_of trim_blanks s) as [last|] eqn:Hlast.
  + reflexivity.
  + apply find_last_not_of_None in Hlast. congruence.
- apply find_first_not_of_None in Hfirst. congruence.
Qed.

Lemma trim_cons_other (c : ascii) (s : string) :
is_blank c = false ->
exists last,
  find_last_not_of trim_blanks (String c s) = Some last
  ∧ trim (String c s) = substring 0 (last + 1) (String c s).
Proof.
intros Hc. unfold trim. unfold is_blank in Hc.
cbn [find_first_not_of]. rewrite Hc.
destruct (find_last_not_of trim_blanks (String c s)) as [last|] eqn:Hlast.
- exists last. split; [reflexivity|]. now rewrite Nat.sub_0_r.
- apply find_last_not_of_None in Hlast. cbn [all_chars] in Hlast.
  unfold is_blank in Hlast at 1. now rewrite Hc in Hlast.
Qed.

Lemma find_last_not_of_snoc (init : string) (d : ascii) :
is_blank d = false ->
find_last_not_of trim_blanks (init +:+ String d EmptyString)
= Some (String.length init).
Proof.
intros Hd. induction init as [|c init IH].
- change (find_last_not_of trim_blanks (String d EmptyString) = Some 0).
  cbn [find_last_not_of]. unfold is_blank in Hd. now rewrite Hd.
- rewrite append_cons. cbn [find_last_not_of]. now rewrite IH.
Qed.

Lemma length_append (a b : string) :
String.length (a +:+ b) = String.length a + String.length b.
Proof.
induction a as [|c a IH]; [reflexivity|].
rewrite append_cons. simpl. now rewrite IH.
Qed.

(** A string that begins and ends with a character that is not a blank
  is left as it is. *)
Lemma trim_tight (s init : string) (c d : ascii) (rest : string) :
s = String c rest -> s = init +:+ String d EmptyString ->
is_blank c = false -> is_blank d = false ->
trim s = s.
Proof.
intros Hhead Hlast Hc Hd.
destruct (trim_cons_other c rest Hc) as (last & Hfind & Htrim).
rewrite <- Hhead in Hfind, Htrim. rewrite Htrim.
rewrite Hlast in Hfind at 1. rewrite find_last_not_of_snoc in Hfind by exact Hd.
injection Hfind as <-.
replace (String.length init + 1) with (String.length s)
  by (rewrite Hlast at 1; rewrite length_append; simpl; lia).
apply substring_whole.
Qed.

Lemma trim_blank_string (s : string) :
all_chars is_blank s = true -> trim s = s.
Proof.
intros Hs. unfold trim.
now rewrite (proj2 (find_first_not_of_None s) Hs).
Qed.

Lemma trim_decompose (s : string) :
all_chars is_blank s = false ->
exists lead trail : string,
  s = lead +:+ trim s +:+ trail
  ∧ all_chars is_blank lead = true
  ∧ all_chars is_blank trail = true
  ∧ (exists c rest, trim s = String c rest ∧ is_blank c = false)
  ∧ (exists init d, trim s = init +:+ String d EmptyString
                    ∧ is_blank d = false).
Proof.
induction s as [|c s IH]; intros Hs; [discriminate|].
destruct (is_blank c) eqn:Hc.
- cbn [all_chars] in Hs. rewrite Hc in Hs. cbn [andb] in Hs.
  destruct (IH Hs) as (lead & trail & Hsplit & Hlead & Htrail & Hhead & Hend).
  rewrite (trim_cons_blank c s Hc Hs).
  exists (String c lead), trail. rewrite append_cons, <- Hsplit.
  split_and!; try assumption; [reflexivity|].
  cbn [all_chars]. now rewrite Hc.
- destruct (trim_cons_other c s Hc) as (last & Hfind & Htrim).
  destruct (find_last_not_of_split _ _ Hfind)
    as (init & d & trail & Hsub & Hsplit & Hd & Htrail).
  exists EmptyString, trail. rewrite Htrim.
  split_and!; try assumption; try reflexivity.
  + exists c, (substring 0 last s).
    replace (last + 1) with (S last) by lia. split; [reflexivity | exact Hc].
  + exists init, d. split; assumption.
Qed.

End Trim.

(** X1.  [trim] returns a string made of blanks only as it is, blanks
    included: the early return on [npos] gives back [s], not the empty
    string. *)
Theorem trim_all_blank (s : string) :
  all_chars is_blank s = true -> trim s = s.
Proof. apply trim_blank_string. Qed.

Lemma trim_all_blank_witness :
  trim (String Chars.space (String Chars.tab EmptyString))
  = String Chars.space (String Chars.tab EmptyString).
Proof. apply trim_all_blank. reflexivity. Defined.

(** X2.  On a string with a character that is not a blank, [trim] cuts
    off a run of blanks at each end and nothing else: the string is
    blanks, then the result, then blanks, and the result begins and
    ends with a character that is not a blank. *)
Theorem trim_splits (s : string) :
  all_chars is_blank s = false ->
  exists lead trail : string,
    s = lead +:+ trim s +:+ trail
    ∧ all_chars is_blank lead = true
    ∧ all_chars is_blank trail = true
    ∧ (exists c rest, trim s = String c rest ∧ is_blank c = false)
    ∧ (exists init d, trim s = init +:+ String d EmptyString
                      ∧ is_blank d = false).
Proof. apply trim_decompose. Qed.

Lemma trim_splits_witness :
  exists lead trail : string,
    " R1  " = lead +:+ trim " R1  " +:+ trail
    ∧ all_chars is_blank lead = true
    ∧ all_chars is_blank trail = true.
Proof.
  destruct (trim_splits " R1  " eq_refl)
    as (lead & trail & Hsplit & Hlead & Htrail & _).
  exists lead, trail. split_and!; assumption.
Defined.

(** X3.  Trimming twice is trimming once. *)
Theorem trim_idempotent (s : string) : trim (trim s) = trim s.
Proof.
  destruct (all_chars is_blank s) eqn:Hs.
  - now rewrite !(trim_blank_string s Hs).
  - destruct (trim_decompose s Hs)
      as (_ & _ & _ & _ & _ & (c & rest & Hhead & Hc) & (init & d & Hend & Hd)).
    exact (trim_tight _ _ _ _ _ Hhead Hend Hc Hd).
Qed.

(** ** [to_upper] and the opcode lookup *)

Section Upper.

Lemma toupper_idempotent (c : ascii) :
Chars.toupper (Chars.toupper c) = Chars.toupper c.
Proof. destruct c as [[] [] [] [] [] [] [] []]; reflexivity. Qed.

Lemma toupper_not_lower (c : ascii) : is_lower (Chars.toupper c) = false.
Proof. destruct c as [[] [] [] [] [] [] [] []]; reflexivity. Qed.

Lemma toupper_other (c : ascii) : is_lower c = false -> Chars.toupper c = c.
Proof. unfold Chars.toupper, is_lower. now intros ->. Qed.

Lemma transform_fixed (f : ascii -> ascii) (p : ascii -> bool) (s : string) :
(forall c, p c = true -> f c = c) ->
all_chars p s = true -> transform f s = s.
Proof.
intros Hf. induction s as [|c s IH]; [reflexivity|].
cbn [all_chars transform]. intros [Hc Hs]%andb_prop.
now rewrite (Hf c Hc), (IH Hs).
Qed.

Lemma to_size_t_int (slot : Z) :
is_int slot -> (0 < slot)%Z -> to_size_t slot = slot.
Proof.
intros [_ Hhi] Hpos. unfold to_size_t. apply Z.mod_small.
split; [lia|]. apply Z.lt_trans with (2 ^ 31)%Z; [exact Hhi | reflexivity].
Qed.

(** With an [int] slot the guard lets through positions 1 and up only. *)
Lemma token_at_position (parts : list string) (slot : Z) (r : string) :
is_int slot -> Decode.token_at parts slot = Some r ->
exists n, 1 <= n ∧ n = Z.to_nat slot ∧ parts !! n = Some r.
Proof.
intros Hint Htok. unfold Decode.token_at in Htok.
destruct (Decode.in_range parts slot) eqn:Hin; [|discriminate].
unfold Decode.in_range in Hin. apply andb_prop in Hin as [Hpos _].
apply Z.ltb_lt in Hpos. rewrite (to_size_t_int slot Hint Hpos) in Htok.
exists (Z.to_nat slot). split_and!; [lia | reflexivity | exact Htok].
Qed.

Lemma token_at_opcode (opcode opcode' : string) (operands : list string)
  (slot : Z) :
is_int slot ->
Decode.token_at (opcode :: operands) slot
= Decode.token_at (opcode' :: operands) slot.
Proof.
intros Hint. unfold Decode.token_at, Decode.in_range. cbn [length].
destruct (Z.ltb_spec 0 slot) as [Hpos|]; [|reflexivity]. cbn [andb].
destruct (to_size_t slot <? Z.of_nat (S (length operands)))%Z; [|reflexivity].
rewrite (to_size_t_int slot Hint Hpos).
destruct (Z.to_nat slot) as [|n] eqn:Hn; [lia | reflexivity].
Qed.

Lemma int_table_lookup (table : gmap string (Z * list Z)) (opcode : string)
  (dest_index : Z) (source_indices : list Z) :
int_table table -> table !! opcode = Some (dest_index, source_indices) ->
is_int dest_index ∧ Forall is_int source_indices.
Proof. intros Htable Hlookup. exact (Htable _ _ Hlookup). Qed.

Lemma omap_token_at_opcode (opcode opcode' : string) (operands : list string)
  (slots : list Z) :
Forall is_int slots ->
omap (Decode.token_at (opcode :: operands)) slots
= omap (Decode.token_at (opcode' :: operands)) slots.
Proof.
induction 1 as [|slot slots Hslot _ IH]; [reflexivity|].
cbn [omap list_omap].
fold (omap (Decode.token_at (opcode :: operands)) slots).
fold (omap (Decode.token_at (opcode' :: operands)) slots).
now rewrite (token_at_opcode opcode opcode' operands slot Hslot), IH.
Qed.

End Upper.

(** X4.  [to_upper] keeps the length, leaves no lower-case letter,
    changes nothing in a string without lower-case letters, and so
    gives the same result when applied twice. *)
Theorem to_upper_normalises (s : string) :
  String.length (to_upper s) = String.length s
  ∧ all_chars (fun c => negb (is_lower c)) (to_upper s) = true
  ∧ (all_chars (fun c => negb (is_lower c)) s = true -> to_upper s = s)
  ∧ to_upper (to_upper s) = to_upper s.
Proof.
  unfold to_upper. split_and!.
  - apply transform_length.
  - rewrite all_chars_transform. induction s as [|c s IH]; [reflexivity|].
    cbn [all_chars]. now rewrite toupper_not_lower, IH.
  - apply transform_fixed. intros c Hc. apply toupper_other.
    now apply negb_true_iff.
  - rewrite transform_compose. apply transform_ext, toupper_idempotent.
Qed.

Lemma to_upper_normalises_witness : to_upper "LD" = "LD".
Proof.
  destruct (to_upper_normalises "LD") as (_ & _ & Hfixed & _).
  apply Hfixed. reflexivity.
Defined.

(** X15.  The opcode is matched without regard to letter case: two
    token sequences with the same operands whose opcodes have the same
    upper-case form get the same destination and the same sources,
    whatever the table holds. *)
Theorem accessors_ignore_opcode_case (texts : list string)
    (table : gmap string (Z * list Z)) (printed : list Report_Item)
    (opcode opcode' : string) (operands : list string) :
  int_table table ->
  to_upper opcode = to_upper opcode' ->
  (exists r : string,
     get_destination_register 0
       (one_line texts table printed (opcode :: operands))
     = Returns r (one_line texts table printed (opcode :: operands))
     ∧ get_destination_register 0
         (one_line texts table printed (opcode' :: operands))
       = Returns r (one_line texts table printed (opcode' :: operands)))
  ∧ (exists rs : list string,
       get_source_registers 0
         (one_line texts table printed (opcode :: operands))
       = Returns rs (one_line texts table printed (opcode :: operands))
       ∧ get_source_registers 0
           (one_line texts table printed (opcode' :: operands))
         = Returns rs (one_line texts table printed (opcode' :: operands))).
Proof.
  intros Htable Hupper. split.
  - eexists. rewrite !get_destination_register_returns. split; [reflexivity|].
    f_equal. f_equal.
    unfold destination_register, parts_of, one_line. cbn.
    unfold Decode.destination, Decode.roles. rewrite Hupper.
    destruct (table !! to_upper opcode') as [[dest_index srcs]|] eqn:Hrow;
      [|reflexivity].
    apply token_at_opcode. now apply (int_table_lookup _ _ _ _ Htable Hrow).
  - eexists. rewrite !get_source_registers_returns. split; [reflexivity|].
    f_equal.
    unfold source_registers, parts_of, one_line. cbn.
    unfold Decode.sources, Decode.source_slots, Decode.roles. rewrite Hupper.
    destruct (table !! to_upper opcode') as [[dest_index srcs]|] eqn:Hrow;
      [|reflexivity].
    apply omap_token_at_opcode. now apply (int_table_lookup _ _ _ _ Htable Hrow).
Qed.

Lemma is_int_slot (n : Z) : (0 <= n <= 3)%Z -> is_int n.
Proof. unfold is_int. change (2 ^ 31)%Z with 2147483648%Z. lia. Qed.

Lemma operand_table_int : int_table operand_table.
Proof.
  intros opcode [dest_index srcs] Hrow. rewrite operand_table_roles in Hrow.
  destruct (Spec.roles opcode) as [[dest slots]|] eqn:Hroles; [|discriminate].
  injection Hrow as <- <-.
  apply roles_slots in Hroles as [Hdest Hslots]. cbn. split.
  - apply is_int_slot. destruct Hdest as [-> | ->]; cbn; lia.
  - apply Forall_fmap. eapply Forall_impl; [exact Hslots|].
    intros slot Hslot. cbn in *. apply is_int_slot. lia.
Qed.

Lemma accessors_ignore_opcode_case_witness :
  exists r : string,
    get_destination_register 0
      (one_line [] operand_table [] ["mul"; "R1"; "R2"; "R3"])
    = Returns r (one_line [] operand_table [] ["mul"; "R1"; "R2"; "R3"])
    ∧ get_destination_register 0
        (one_line [] operand_table [] ["Mul"; "R1"; "R2"; "R3"])
      = Returns r (one_line [] operand_table [] ["Mul"; "R1"; "R2"; "R3"]).
Proof.
  exact (proj1 (accessors_ignore_opcode_case [] operand_table []
                  "mul" "Mul" ["R1"; "R2"; "R3"] operand_table_int eq_refl)).
Defined.

(** X16.  Whatever [int] slots the table holds, the accessors never
    hand out the opcode itself: the destination is the empty string or
    a token at position 1 or later, and every source is a token at
    position 1 or later. *)
Theorem accessors_skip_opcode (w : World) (index : nat) (parts : list string) :
  int_table (operand_map (this w)) ->
  parsed_instructions (this w) !! index = Some parts ->
  (exists r : string,
     get_destination_register index w = Returns r w
     ∧ (r = EmptyString ∨ exists n, 1 <= n ∧ parts !! n = Some r))
  ∧ (exists rs : list string,
       get_source_registers index w = Returns rs w
       ∧ Forall (fun r => exists n, 1 <= n ∧ parts !! n = Some r) rs).
Proof.
  intros Htable Hparts. split.
  - eexists. split; [apply get_destination_register_returns|].
    unfold destination_register, parts_of. rewrite Hparts. cbn.
    unfold Decode.destination.
    destruct (Decode.roles _ parts) as [[dest_index srcs]|] eqn:Hroles;
      [|now left].
    destruct (Decode.token_at parts dest_index) as [r|] eqn:Htok; [|now left].
    right. cbn. unfold Decode.roles in Hroles.
    destruct parts as [|part0 rest]; [discriminate|].
    destruct (int_table_lookup _ _ _ _ Htable Hroles) as [Hint _].
    destruct (token_at_position _ _ _ Hint Htok) as (n & Hn & _ & Hr). eauto.
  - eexists. split; [apply get_source_registers_returns|].
    unfold source_registers, parts_of. rewrite Hparts. cbn.
    unfold Decode.sources, Decode.source_slots.
    destruct (Decode.roles _ parts) as [[dest_index srcs]|] eqn:Hroles;
      [|constructor].
    unfold Decode.roles in Hroles.
    destruct parts as [|part0 rest]; [discriminate|].
    destruct (int_table_lookup _ _ _ _ Htable Hroles) as [_ Hints].
    apply Forall_forall. intros r Hr.
    apply list_elem_of_omap in Hr as (slot & Hslot & Htok).
    rewrite Forall_forall in Hints.
    destruct (token_at_position _ _ _ (Hints slot Hslot) Htok)
      as (n & Hn & _ & Hlook). eauto.
Qed.

Lemma accessors_skip_opcode_witness :
  exists rs : list string,
    get_source_registers 0
      (one_line [] {[ "JMP" := (0%Z, [(-1)%Z; 0%Z; 1%Z; 9%Z]) ]} []
                ["jmp"; "R7"])
    = Returns rs
        (one_line [] {[ "JMP" := (0%Z, [(-1)%Z; 0%Z; 1%Z; 9%Z]) ]} []
                  ["jmp"; "R7"])
    ∧ Forall (fun r => exists n, 1 <= n ∧ ["jmp"; "R7"] !! n = Some r) rs.
Proof.
  refine (proj2 (accessors_skip_opcode
                   (one_line [] {[ "JMP" := (0%Z, [(-1)%Z; 0%Z; 1%Z; 9%Z]) ]} []
                             ["jmp"; "R7"])
                   0 ["jmp"; "R7"] _ eq_refl)).
  apply map_Forall_singleton. cbn. split.
  - split; [now vm_compute | reflexivity].
  - repeat constructor; now vm_compute.
Defined.

(** ** More on [parse_instruction] and the constructor *)

Section Parsing.

Lemma transform_append (f : ascii -> ascii) (a b : string) :
transform f (a +:+ b) = transform f a +:+ transform f b.
Proof.
induction a as [|c a IH]; [reflexivity|].
rewrite append_cons. cbn [transform]. now rewrite IH, append_cons.
Qed.

Lemma fields_append_space (c : ascii) (a b : string) :
Chars.isspace c = true ->
forall word,
  Spec.fields word (a +:+ String c b)
  = Spec.fields word a ++ Spec.fields EmptyString b.
Proof.
intros Hc. induction a as [|d a IH]; intros word.
- change (EmptyString +:+ String c b) with (String c b).
  cbn [Spec.fields]. rewrite Hc. now destruct word.
- rewrite append_cons. cbn [Spec.fields].
  destruct (Chars.isspace d); [|apply IH].
  destruct word; rewrite IH; reflexivity.
Qed.

Lemma respace_separator (c : ascii) :
is_separator c = true ->
Chars.isspace (if Spec.is_delimiter c then " "%char else c) = true.
Proof.
unfold is_separator. destruct (Spec.is_delimiter c); [reflexivity|].
now rewrite orb_false_r.
Qed.

Lemma parse_instruction_append (c : ascii) (a b : string) :
is_separator c = true ->
parse_instruction (a +:+ String c b)
= parse_instruction a ++ parse_instruction b.
Proof.
intros Hc. rewrite !parse_instruction_fields. unfold Spec.respace.
rewrite transform_append. cbn [transform].
apply fields_append_space, respace_separator, Hc.
Qed.

Lemma fields_all_chars (p : ascii -> bool) (s : string) : forall word,
all_chars (fun c => Chars.isspace c || p c) s = true ->
all_chars p word = true ->
Forall (fun token => all_chars p token = true) (Spec.fields word s).
Proof.
induction s as [|c s IH]; intros word Hs Hword.
- cbn. destruct word; repeat constructor. exact Hword.
- cbn [all_chars] in Hs. apply andb_prop in Hs as [Hc Hs].
  cbn [Spec.fields]. destruct (Chars.isspace c) eqn:Hspace.
  + destruct word.
    * now apply IH.
    * constructor; [exact Hword | now apply IH].
  + cbn [orb] in Hc.
    apply IH; [exact Hs|]. rewrite all_chars_append, Hword.
    cbn. now rewrite Hc.
Qed.

End Parsing.

Section Round_trip.

Lemma all_chars_always (p : ascii -> bool) (s : string) :
(forall c, p c = true) -> all_chars p s = true.
Proof.
intros Hp. induction s as [|c s IH]; [reflexivity|].
cbn [all_chars]. now rewrite Hp, IH.
Qed.

Lemma respace_char (c : ascii) :
Chars.isspace (if Spec.is_delimiter c then " "%char else c)
|| negb (is_separator (if Spec.is_delimiter c then " "%char else c))
= true.
Proof. destruct c as [[] [] [] [] [] [] [] []]; reflexivity. Qed.

Lemma parse_instruction_clean (instruction : string) :
Forall is_clean (parse_instruction instruction).
Proof.
pose proof (parse_instruction_words instruction) as Hwords.
assert (Hchars : Forall (fun token =>
          all_chars (fun c => negb (is_separator c)) token = true)
          (parse_instruction instruction)).
{ rewrite parse_instruction_fields. apply fields_all_chars; [|reflexivity].
  unfold Spec.respace. rewrite all_chars_transform.
  apply all_chars_always, respace_char. }
rewrite Forall_forall in Hwords, Hchars. apply Forall_forall.
intros token Htoken. split; [apply Hwords, Htoken | apply Hchars, Htoken].
Qed.

Lemma fields_one_word (token : string) : forall word,
all_chars (fun c => negb (Chars.isspace c)) token = true ->
Spec.fields word token
= match word +:+ token with EmptyString => [] | w => [w] end.
Proof.
induction token as [|c token IH]; intros word Htoken.
- rewrite append_empty_r. now destruct word.
- cbn [all_chars] in Htoken. apply andb_prop in Htoken as [Hc Htoken].
  apply negb_true_iff in Hc. cbn [Spec.fields]. rewrite Hc.
  rewrite IH by exact Htoken. now rewrite append_snoc.
Qed.

Lemma parse_instruction_one (token : string) :
is_clean token -> parse_instruction token = [token].
Proof.
intros [Hne Hclean]. rewrite parse_instruction_fields.
assert (Hsame : Spec.respace token = token).
{ unfold Spec.respace.
  apply (transform_fixed _ (fun c => negb (is_separator c))); [|exact Hclean].
  intros c Hc. apply negb_true_iff in Hc. unfold is_separator in Hc.
  apply orb_false_iff in Hc as [_ Hd]. now rewrite Hd. }
rewrite Hsame, fields_one_word.
- change (EmptyString +:+ token) with token. now destruct token.
- revert Hclean. apply all_chars_impl. intros c Hc.
  apply negb_true_iff in Hc. unfold is_separator in Hc.
  apply orb_false_iff in Hc as [Hs _]. now rewrite Hs.
Qed.

Lemma parse_instruction_join (tokens : list string) :
Forall is_clean tokens -> parse_instruction (join tokens) = tokens.
Proof.
induction 1 as [|token rest Htoken Hrest IH]; [reflexivity|].
destruct rest as [|next rest].
- now apply parse_instruction_one.
- change (join (token :: next :: rest))
    with (token +:+ String Chars.space (join (next :: rest))).
  rewrite parse_instruction_append by reflexivity.
  now rewrite (parse_instruction_one token Htoken), IH.
Qed.

End Round_trip.

(** X6.  A separator between two pieces of a line, white space or one
    of the four delimiters, splits the parse: the tokens of the whole
    are the tokens of the first piece followed by those of the second. *)
Theorem parse_instruction_splits_at_separator (c : ascii) (a b : string) :
  is_separator c = true ->
  parse_instruction (a +:+ String c b)
  = parse_instruction a ++ parse_instruction b.
Proof. apply parse_instruction_append. Qed.

Lemma parse_instruction_splits_at_separator_witness :
  parse_instruction ("LD R1" +:+ String "," "0(R2)")
  = parse_instruction "LD R1" ++ parse_instruction "0(R2)".
Proof. apply parse_instruction_splits_at_separator. reflexivity. Defined.

(** X7.  Tokens without separators survive a round trip: written on one
    line with single spaces between them and parsed again, they come
    back as they were. *)
Theorem parse_instruction_of_join (tokens : list string) :
  Forall is_clean tokens -> parse_instruction (join tokens) = tokens.
Proof. apply parse_instruction_join. Qed.

Lemma parse_instruction_of_join_witness :
  parse_instruction (join ["SD"; "R1"; "0"; "R3"]) = ["SD"; "R1"; "0"; "R3"].
Proof.
  apply parse_instruction_of_join.
  repeat (constructor; [split; [discriminate | reflexivity]|]). constructor.
Defined.

(** X8.  Every token [parse_instruction] produces is non-empty and free
    of white space and of the four delimiters; parsing is therefore
    stable: the tokens of a line, joined and parsed again, are the
    tokens of the line. *)
Theorem parse_instruction_tokens_clean (instruction : string) :
  Forall is_clean (parse_instruction instruction)
  ∧ parse_instruction (join (parse_instruction instruction))
    = parse_instruction instruction.
Proof.
  split; [apply parse_instruction_clean|].
  apply parse_instruction_join, parse_instruction_clean.
Qed.

(** X5.  The constructor keeps the lines as given and parses each of
    them, in order: line [i] of the input and entry [i] of the parsed
    instructions always go together, the two vectors have one length,
    and the scanner of a concatenation holds the parsed lines of the
    first part followed by those of the second.  The table does not
    depend on the input. *)
Theorem constructor_parses_each_line (instructions more : list string) :
  _instructions (new_Dependency_Identifier instructions) = instructions
  ∧ length (parsed_instructions (new_Dependency_Identifier instructions))
    = length instructions
  ∧ (forall i : nat,
       parsed_instructions (new_Dependency_Identifier instructions) !! i
       = parse_instruction <$> instructions !! i)
  ∧ parsed_instructions (new_Dependency_Identifier (instructions ++ more))
    = parsed_instructions (new_Dependency_Identifier instructions)
      ++ parsed_instructions (new_Dependency_Identifier more)
  ∧ operand_map (new_Dependency_Identifier instructions)
    = operand_map (new_Dependency_Identifier more).
Proof.
  split_and!.
  - reflexivity.
  - apply length_parsed_new.
  - intros i. now rewrite parsed_instructions_new, list_lookup_fmap.
  - rewrite !parsed_instructions_new. apply fmap_app.
  - reflexivity.
Qed.

(** ** More on the scans *)

Section Findings_shape.

Variable instructions : list string.

Local Abbreviation self := (new_Dependency_Identifier instructions).

Lemma destination_register_token (index : nat) (r : string) :
destination_register self index = Some r -> r ∈ parts_of self index.
Proof.
unfold destination_register, Decode.destination.
destruct (Decode.roles _ _) as [[dest_index srcs]|]; [|discriminate].
unfold Decode.token_at. destruct (Decode.in_range _ _); [|discriminate].
apply list_elem_of_lookup_2.
Qed.

Lemma parts_of_clean (index : nat) : Forall is_clean (parts_of self index).
Proof.
rewrite parts_of_new. destruct (instructions !! index); cbn.
- apply parse_instruction_clean.
- constructor.
Qed.

Lemma destination_register_clean (index : nat) (r : string) :
destination_register self index = Some r -> is_clean r.
Proof.
intros Hdest. apply destination_register_token in Hdest.
pose proof (parts_of_clean index) as Hclean.
rewrite Forall_forall in Hclean. now apply Hclean.
Qed.

(** Whatever the kind, a finding of the pair [(i, j)] carries one
  register on both sides, the destination of one of the two. *)
Lemma between_shape (h : Hazard) (i j : nat) (d : Dependency) :
d ∈ between self h i j ->
exists r, d = finding self h i j r r
          ∧ destination_register self (match h with WAR => j | _ => i end)
            = Some r
          ∧ (h = WAW -> destination_register self j = Some r)
          ∧ (h = RAW -> r ∈ source_registers self j)
          ∧ (h = WAR -> r ∈ source_registers self i).
Proof.
destruct h; intros Hd.
- rewrite between_RAW in Hd by apply present_new.
  destruct (destination_register self i) as [r|]; [|inversion Hd].
  apply list_elem_of_fmap in Hd as (slot & -> & Hslot).
  apply list_elem_of_filter in Hslot as [Htok Hin].
  exists r. split_and!; try reflexivity; try discriminate.
  intros _. apply source_registers_slots. eauto.
- rewrite between_WAR in Hd by apply present_new.
  destruct (destination_register self j) as [r|]; [|inversion Hd].
  apply list_elem_of_fmap in Hd as (slot & -> & Hslot).
  apply list_elem_of_filter in Hslot as [Htok Hin].
  exists r. split_and!; try reflexivity; try discriminate.
  intros _. apply source_registers_slots. eauto.
- rewrite between_WAW in Hd by apply present_new.
  destruct (destination_register self i) as [r|]; [|inversion Hd].
  destruct (destination_register self j) as [r'|]; [|inversion Hd].
  destruct (decide (r = r')) as [<-|]; [|inversion Hd].
  apply list_elem_of_singleton in Hd as ->.
  exists r. split_and!; try reflexivity; discriminate.
Qed.

Lemma findings_shape (h : Hazard) (d : Dependency) :
d ∈ findings h self ->
exists i j r,
  i < j < length instructions
  ∧ d = finding self h i j r r
  ∧ destination_register self (match h with WAR => j | _ => i end) = Some r
  ∧ (h = WAW -> destination_register self j = Some r)
  ∧ (h = RAW -> r ∈ source_registers self j)
  ∧ (h = WAR -> r ∈ source_registers self i).
Proof.
intros Hd. apply elem_of_findings_new in Hd as (i & j & Hij & Hd).
apply between_shape in Hd as (r & Hshape). exists i, j, r. now split.
Qed.

Lemma text_of_new (i : nat) :
i < length instructions -> instructions !! i = Some (text_of self i).
Proof.
intros Hi.
apply (text_of_lookup self (consistent_new instructions) i).
now rewrite length_parsed_new.
Qed.

End Findings_shape.

(** X9.  On a scanner with at least one instruction every scan prints
    its header first, then its findings and nothing between them, and
    the line "--- Analysis Complete ---" last. *)
Theorem report_is_framed (h : Hazard) (instructions : list string)
    (printed : list Report_Item) :
  instructions ≠ [] ->
  exists found : list Dependency,
    find h (scanner instructions printed)
    = Returns tt
        (scanner instructions
           (printed ++ Identifying h :: (Dependency_Found <$> found)
                                        ++ [Analysis_Complete])).
Proof.
  intros Hne. exists (findings h (new_Dependency_Identifier instructions)).
  rewrite find_new. unfold expected_report. rewrite length_parsed_new.
  destruct instructions; [congruence | reflexivity].
Qed.

Lemma report_is_framed_witness :
  exists found : list Dependency,
    find WAR (scanner ["LD R1, 0(R2)"] [])
    = Returns tt
        (scanner ["LD R1, 0(R2)"]
           (Identifying WAR :: (Dependency_Found <$> found)
                               ++ [Analysis_Complete])).
Proof.
  apply (report_is_framed WAR ["LD R1, 0(R2)"] []). discriminate.
Defined.

(** X10.  Every finding a scan prints is of the kind of the scan, names
    two instructions of the input in program order, quotes their lines
    as the input has them, and gives the same register on both sides, a
    token free of separators. *)
Theorem findings_well_formed (h : Hazard) (instructions : list string)
    (printed : list Report_Item) :
  exists out : list Report_Item,
    find h (scanner instructions printed)
    = Returns tt (scanner instructions (printed ++ out))
    ∧ forall d, d ∈ dependencies out ->
        hazard d = h
        ∧ earlier d < later d < length instructions
        ∧ instructions !! earlier d = Some (earlier_text d)
        ∧ instructions !! later d = Some (later_text d)
        ∧ earlier_register d = later_register d
        ∧ is_clean (earlier_register d).
Proof.
  exists (expected_report h (new_Dependency_Identifier instructions)).
  split; [apply find_new|]. rewrite dependencies_expected_report.
  intros d Hd.
  apply findings_shape in Hd as (i & j & r & Hij & -> & Hdest & _).
  cbn [finding hazard earlier later earlier_text later_text
       earlier_register later_register].
  split_and!; try reflexivity; try lia.
  - apply text_of_new. lia.
  - apply text_of_new. lia.
  - eapply destination_register_clean, Hdest.
Qed.

Lemma findings_well_formed_witness :
  is_clean "R1"
  ∧ ["ADD R1, R2, R3"; "SUB R4, R1, R5"] !! 1 = Some "SUB R4, R1, R5".
Proof.
  destruct (findings_well_formed RAW ["ADD R1, R2, R3"; "SUB R4, R1, R5"] [])
    as (out & Hrun & Hformed).
  vm_compute in Hrun. injection Hrun as <-.
  destruct (Hformed
              {| hazard := RAW;
                 earlier := 0; earlier_text := "ADD R1, R2, R3";
                 earlier_register := "R1";
                 later := 1; later_text := "SUB R4, R1, R5";
                 later_register := "R1" |})
    as (_ & _ & _ & Hlater & _ & Hclean).
  - cbn [dependencies]. left.
  - split; [exact Hclean | exact Hlater].
Defined.

(** X11.  The subscripts of the scans are safe on any object that holds
    as many lines as parsed lines, whatever its table and tokens: each
    scan then returns, with the object as it was and its header
    printed first.  The condition is needed: an object with parsed
    lines but no stored lines makes a scan fault. *)
Theorem scans_return_on_consistent_object (self : Dependency_Identifier)
    (h : Hazard) (printed : list Report_Item) :
  consistent self ->
  (exists out : list Report_Item,
     find h {| this := self; cout := printed |}
     = Returns tt {| this := self; cout := printed ++ Identifying h :: out |})
  ∧ find RAW {| this := {| _instructions := [];
                           parsed_instructions :=
                             [["ADD"; "R1"; "R2"; "R3"];
                              ["SUB"; "R4"; "R1"; "R5"]];
                           operand_map := operand_table |};
                cout := [] |}
    = Fault.
Proof.
  intros Hconsistent. split; [|reflexivity].
  eexists. rewrite (emits_find self Hconsistent h printed).
  unfold expected_report. reflexivity.
Qed.

Lemma scans_return_on_consistent_object_witness :
  exists out : list Report_Item,
    find WAW
      {| this := {| _instructions := ["first"; "second"];
                    parsed_instructions := [["MOV"; "R1"]; ["mov"; "R1"; "R2"]];
                    operand_map := {[ "MOV" := (1%Z, [5%Z; (-1)%Z]) ]} |};
         cout := [] |}
    = Returns tt
        {| this := {| _instructions := ["first"; "second"];
                      parsed_instructions := [["MOV"; "R1"]; ["mov"; "R1"; "R2"]];
                      operand_map := {[ "MOV" := (1%Z, [5%Z; (-1)%Z]) ]} |};
           cout := Identifying WAW :: out |}.
Proof.
  exact (proj1 (scans_return_on_consistent_object
                  {| _instructions := ["first"; "second"];
                     parsed_instructions := [["MOV"; "R1"]; ["mov"; "R1"; "R2"]];
                     operand_map := {[ "MOV" := (1%Z, [5%Z; (-1)%Z]) ]} |}
                  WAW [] eq_refl)).
Defined.

Section Prefix.

Context {A : Type} (body body' : nat -> nat -> list A) (key : A -> nat * nat).

Hypothesis Hkey : forall i j x, x ∈ body i j -> key x = (i, j).

Lemma ordered_pairs_prefix (m m' : nat) :
(forall i j, i < j < m -> body i j = body' i j) ->
filter (fun x => (key x).2 < m) (ordered_pairs (m + m') body)
= ordered_pairs m body'.
Proof.
intros Hagree. unfold ordered_pairs.
rewrite filter_flat_map, seq_app, flat_map_app.
rewrite (flat_map_nil _ (seq (0 + m) m')), app_nil_r.
- apply flat_map_ext_elem. intros i Hi. apply elem_of_seq in Hi.
  replace (m + m' - (i + 1)) with ((m - (i + 1)) + m') by lia.
  rewrite seq_app, flat_map_app, filter_app.
  rewrite (filter_none _ (flat_map _ (seq (i + 1 + (m - (i + 1))) m'))),
    app_nil_r.
  + rewrite filter_flat_map. apply flat_map_ext_elem. intros j Hj.
    apply elem_of_seq in Hj. rewrite <- Hagree by lia.
    apply filter_all. intros x Hx. rewrite (Hkey _ _ _ Hx). cbn. lia.
  + intros x Hx. apply elem_of_flat_map in Hx as (j & Hj & Hx).
    apply elem_of_seq in Hj. rewrite (Hkey _ _ _ Hx). cbn. lia.
- intros i Hi. apply elem_of_seq in Hi. apply filter_none.
  intros x Hx. apply elem_of_flat_map in Hx as (j & Hj & Hx).
  apply elem_of_seq in Hj. rewrite (Hkey _ _ _ Hx). cbn. lia.
Qed.

End Prefix.

Lemma between_ext (self self' : Dependency_Identifier) (h : Hazard) (i j : nat) :
  operand_map self = operand_map self' ->
  parts_of self i = parts_of self' i -> parts_of self j = parts_of self' j ->
  text_of self i = text_of self' i -> text_of self j = text_of self' j ->
  between self h i j = between self' h i j.
Proof.
  intros Hmap Hpi Hpj Hti Htj.
  destruct h; cbn [between];
    unfold destination_register, source_registers, finding;
    now rewrite Hmap, Hpi, Hpj, Hti, Htj.
Qed.

Lemma findings_prefix (h : Hazard) (instructions more : list string) :
  filter (fun d => later d < length instructions)
         (findings h (new_Dependency_Identifier (instructions ++ more)))
  = findings h (new_Dependency_Identifier instructions).
Proof.
  unfold findings. rewrite !length_parsed_new, length_app.
  apply (ordered_pairs_prefix _ _ pair_of).
  - intros i j d. apply between_pair.
  - intros i j Hij. apply between_ext.
    + reflexivity.
    + rewrite !parts_of_new. now rewrite lookup_app_l by lia.
    + rewrite !parts_of_new. now rewrite lookup_app_l by lia.
    + unfold text_of. cbn. now rewrite lookup_app_l by lia.
    + unfold text_of. cbn. now rewrite lookup_app_l by lia.
Qed.

(** X12.  Instructions added at the end never change what was found
    before: the findings of the longer program whose later instruction
    is an old one are the findings of the shorter program, in the same
    order. *)
Theorem findings_stable_under_append (h : Hazard)
    (instructions more : list string) (printed : list Report_Item) :
  exists out out' : list Report_Item,
    find h (scanner (instructions ++ more) printed)
    = Returns tt (scanner (instructions ++ more) (printed ++ out))
    ∧ find h (scanner instructions printed)
      = Returns tt (scanner instructions (printed ++ out'))
    ∧ filter (fun d => later d < length instructions) (dependencies out)
      = dependencies out'.
Proof.
  exists (expected_report h (new_Dependency_Identifier (instructions ++ more))),
         (expected_report h (new_Dependency_Identifier instructions)).
  split_and!; [apply find_new | apply find_new |].
  rewrite !dependencies_expected_report. apply findings_prefix.
Qed.

Section Roles.

Variable instructions : list string.

Local Abbreviation self := (new_Dependency_Identifier instructions).

Lemma no_destination (k : nat) (printed : list Report_Item) :
get_destination_register k (scanner instructions printed)
= Returns EmptyString (scanner instructions printed) ->
destination_register self k = None.
Proof.
rewrite get_destination_register_returns. intros [= Hdest].
cbn [this scanner] in Hdest.
destruct (destination_register self k) as [r|] eqn:Hr; [|reflexivity].
apply present_new in Hr. cbn in Hdest. congruence.
Qed.

Lemma no_sources (k : nat) (printed : list Report_Item) :
get_source_registers k (scanner instructions printed)
= Returns [] (scanner instructions printed) ->
source_registers self k = [].
Proof.
rewrite get_source_registers_returns. now intros [= Hsrc].
Qed.

Lemma findings_writers (h : Hazard) (d : Dependency) (k : nat) :
d ∈ findings h self -> k ∈ writers d ->
is_Some (destination_register self k).
Proof.
intros Hd Hk.
apply findings_shape in Hd as (i & j & r & _ & -> & Hdest & Hwaw & _).
unfold writers in Hk. cbn [finding hazard earlier later] in Hk.
destruct h.
- apply list_elem_of_singleton in Hk as ->. eauto.
- apply list_elem_of_singleton in Hk as ->. eauto.
- apply elem_of_cons in Hk as [->|Hk]; [eauto|].
  apply list_elem_of_singleton in Hk as ->. rewrite Hwaw; eauto.
Qed.

Lemma findings_readers (h : Hazard) (d : Dependency) (k : nat) :
d ∈ findings h self -> k ∈ readers d ->
source_registers self k ≠ [].
Proof.
intros Hd Hk.
apply findings_shape in Hd as (i & j & r & _ & -> & _ & _ & Hraw & Hwar).
unfold readers in Hk. cbn [finding hazard earlier later] in Hk.
destruct h.
- apply list_elem_of_singleton in Hk as ->.
  intros Hnil. specialize (Hraw eq_refl). rewrite Hnil in Hraw.
  inversion Hraw.
- apply list_elem_of_singleton in Hk as ->.
  intros Hnil. specialize (Hwar eq_refl). rewrite Hnil in Hwar.
  inversion Hwar.
- inversion Hk.
Qed.

End Roles.

(** X13.  Across the three scans an instruction is named as the writer
    of a register only if the accessor gives it a destination, and as
    the reader only if the accessor gives it sources.  So a store or a
    branch, for which [get_destination_register] returns the empty
    string, is never a writer, and a load, for which
    [get_source_registers] returns nothing, is never a reader: the base
    register of ["LD R1, 0(R2)"] is not seen as read. *)
Theorem silent_instructions_take_no_part (h : Hazard)
    (instructions : list string) (k : nat) (printed : list Report_Item) :
  exists out : list Report_Item,
    find h (scanner instructions printed)
    = Returns tt (scanner instructions (printed ++ out))
    ∧ (get_destination_register k (scanner instructions printed)
       = Returns EmptyString (scanner instructions printed) ->
       forall d, d ∈ dependencies out -> k ∉ writers d)
    ∧ (get_source_registers k (scanner instructions printed)
       = Returns [] (scanner instructions printed) ->
       forall d, d ∈ dependencies out -> k ∉ readers d).
Proof.
  exists (expected_report h (new_Dependency_Identifier instructions)).
  split; [apply find_new|]. rewrite dependencies_expected_report. split.
  - intros Hnone d Hd Hk. apply no_destination in Hnone.
    destruct (findings_writers _ _ _ _ Hd Hk) as [r Hr]. congruence.
  - intros Hnone d Hd Hk. apply no_sources in Hnone.
    now apply (findings_readers _ _ _ _ Hd Hk).
Qed.

Lemma silent_instructions_take_no_part_witness :
  exists out : list Report_Item,
    find RAW (scanner ["ADD R2, R3, R4"; "LD R1, 0(R2)"] [])
    = Returns tt (scanner ["ADD R2, R3, R4"; "LD R1, 0(R2)"] out)
    ∧ forall d, d ∈ dependencies out -> 1 ∉ readers d.
Proof.
  destruct (silent_instructions_take_no_part
              RAW ["ADD R2, R3, R4"; "LD R1, 0(R2)"] 1 [])
    as (out & Hrun & _ & Hreaders).
  exists out. split; [exact Hrun|]. apply Hreaders. reflexivity.
Defined.

Section Bounds.

Context {A : Type} (body : nat -> nat -> list A) (c : nat).

Hypothesis Hbody : forall i j, length (body i j) <= c.

Lemma length_flat_map_le (i : nat) (l : list nat) :
length (flat_map (body i) l) <= c * length l.
Proof.
induction l as [|j l IH]; [cbn; lia|].
cbn [flat_map length]. rewrite length_app. specialize (Hbody i j). lia.
Qed.

Lemma length_pairs_on (indices : list nat) :
2 * length (pairs_on indices body)
<= c * (length indices * (length indices - 1)).
Proof.
induction indices as [|i rest IH]; [cbn; lia|].
cbn [pairs_on length]. rewrite length_app.
pose proof (length_flat_map_le i rest) as Hrow.
destruct (length rest) as [|n] eqn:Hn.
- cbn in *. lia.
- replace (S n - 1) with n in IH by lia.
  replace (S (S n) - 1) with (S n) by lia. nia.
Qed.

End Bounds.

Lemma roles_slots_count (opcode : string) (dest : option nat)
    (slots : list nat) :
  Spec.roles opcode = Some (dest, slots) -> length slots <= 2.
Proof.
  unfold Spec.roles, Spec.opcode_table. cbn [Spec.roles_in].
  repeat (case_bool_decide; [intros [= <- <-]; cbn; lia|]).
  discriminate.
Qed.

Lemma source_slots_count (instructions : list string) (index : nat) :
  length (source_slots (new_Dependency_Identifier instructions) index) <= 2.
Proof.
  unfold source_slots, Decode.source_slots, Decode.roles.
  cbn [operand_map new_Dependency_Identifier].
  destruct (parts_of _ index) as [|part0 rest]; [cbn; lia|].
  rewrite operand_table_roles.
  destruct (Spec.roles (to_upper part0)) as [[dest slots]|] eqn:Hroles;
    [|cbn; lia].
  cbn. rewrite length_fmap. eapply roles_slots_count, Hroles.
Qed.

Lemma between_length (h : Hazard) (instructions : list string) (i j : nat) :
  length (between (new_Dependency_Identifier instructions) h i j)
  <= per_pair h.
Proof.
  destruct h; cbn [per_pair].
  - rewrite between_RAW by apply present_new.
    destruct (destination_register _ i); [|cbn; lia].
    rewrite length_fmap.
    etransitivity; [apply length_filter | apply source_slots_count].
  - rewrite between_WAR by apply present_new.
    destruct (destination_register _ j); [|cbn; lia].
    rewrite length_fmap.
    etransitivity; [apply length_filter | apply source_slots_count].
  - rewrite between_WAW by apply present_new.
    destruct (destination_register _ i); [|cbn; lia].
    destruct (destination_register _ j); [|cbn; lia].
    case_decide; cbn; lia.
Qed.

(** X14.  The output of a scan is bounded by the number of ordered
    pairs: with [n] instructions the WAW scan prints at most
    [n (n - 1) / 2] findings, and the RAW and the WAR scan at most
    twice as many, two being the most source slots an opcode has. *)
Theorem findings_bounded (h : Hazard) (instructions : list string)
    (printed : list Report_Item) :
  exists out : list Report_Item,
    find h (scanner instructions printed)
    = Returns tt (scanner instructions (printed ++ out))
    ∧ 2 * length (dependencies out)
      <= per_pair h * (length instructions * (length instructions - 1)).
Proof.
  exists (expected_report h (new_Dependency_Identifier instructions)).
  split; [apply find_new|]. rewrite dependencies_expected_report.
  unfold findings. rewrite length_parsed_new, ordered_pairs_on.
  pose proof (length_pairs_on
                (between (new_Dependency_Identifier instructions) h)
                (per_pair h)
                (fun i j => between_length h instructions i j)
                (seq 0 (length instructions))) as Hbound.
  now rewrite length_seq in Hbound.
Qed.

Section Nothing_lost.

Lemma append_assoc_string (a b c : string) :
(a +:+ b) +:+ c = a +:+ (b +:+ c).
Proof.
induction a as [|d a IH]; [reflexivity|].
now rewrite !append_cons, IH.
Qed.

Lemma glue_fields (s : string) : forall word,
glue (Spec.fields word s)
= word +:+ keep (fun c => negb (Chars.isspace c)) s.
Proof.
induction s as [|c s IH]; intros word.
- cbn [Spec.fields keep]. destruct word; [reflexivity|].
  cbn [glue]. now rewrite !append_empty_r.
- cbn [Spec.fields keep]. destruct (Chars.isspace c); cbn [negb].
  + destruct word; [apply IH|]. cbn [glue]. now rewrite IH.
  + now rewrite IH, append_snoc.
Qed.

Lemma keep_respace (s : string) :
keep (fun c => negb (Chars.isspace c)) (Spec.respace s)
= keep (fun c => negb (is_separator c)) s.
Proof.
unfold Spec.respace, is_separator.
induction s as [|c s IH]; [reflexivity|].
cbn [transform keep]. rewrite IH.
destruct (Spec.is_delimiter c).
- now rewrite orb_true_r.
- now rewrite orb_false_r.
Qed.

End Nothing_lost.

(** X17.  [parse_instruction] drops separators and nothing else: the
    tokens written one after the other are the line with its white
    space and delimiters taken out, every other character kept and in
    its place. *)
Theorem parse_instruction_keeps_characters (instruction : string) :
  glue (parse_instruction instruction)
  = keep (fun c => negb (is_separator c)) instruction.
Proof.
  rewrite parse_instruction_fields, glue_fields, keep_respace.
  reflexivity.
Qed.
